(** * Dense N-dimensional iteration spaces (space.cpp)

    A shallow embedding of the two revisions of [space.cpp]:
    the 2-D prototype ([space2d], [_rm_order], [_static_partition]) and the
    generic version ([impl::dense_space], [impl::rm_next], [impl::cm_next],
    [impl::rm_order], [impl::cm_order], [impl::static_partition],
    [iteration]).

    Conventions.
    - [int] is a 32-bit two's-complement integer, held in [Z]; the result
      of every addition, subtraction and multiplication is passed through
      [int_wrap].  (The C++ standard leaves signed overflow undefined; the
      embedding follows the wrap-around of the target hardware.)  A
      division that traps, by zero or of [INT_MIN] by [-1], is reported as
      [None]; any other quotient of two ints is an int and needs no
      wrapping.
    - [std::array<int, DIM>] is a [list Z] of length [DIM]; [arr[i]] is the
      total lookup [arr !!! i] and [arr[i] = v] is [<[i:=v]> arr].  The
      template code only ever indexes below [DIM]; the one run-time index,
      the [dim] argument of [static_partition], is checked explicitly and an
      out-of-range access is reported as [None] (no defined behaviour).
    - [omp_get_thread_num ()] and [omp_get_num_threads ()] are explicit
      arguments [id] and [threads]; the OpenMP runtime only ever supplies
      [0 <= id < threads]. *)

From Stdlib Require Import ZArith Lia.
From stdpp Require Import base list list_numbers.

Local Open Scope Z_scope.

(** ** Machine integers *)

Definition int_min : Z := - 2 ^ 31.
Definition int_max : Z := 2 ^ 31 - 1.

Definition int_wrap (z : Z) : Z := (z + 2 ^ 31) mod 2 ^ 32 - 2 ^ 31.

Definition in_int (z : Z) : Prop := int_min <= z <= int_max.

(** [a / b] on ints traps: a division by zero, or [INT_MIN / -1], whose
    quotient is no int. *)
Definition int_div_traps (a b : Z) : bool :=
  (b =? 0) || ((a =? int_min) && (b =? -1)).

(** ** Arrays of [int] *)

Abbreviation array := (list Z).

(** [++arr[i]] *)
Definition pre_incr (arr : array) (i : nat) : array :=
  <[i := int_wrap (arr !!! i + 1)]> arr.

(** [std::array::operator==], element by element. *)
Fixpoint array_eq (a b : array) : bool :=
  match a, b with
  | [], [] => true
  | x :: a', y :: b' => (x =? y) && array_eq a' b'
  | _, _ => false
  end.

Definition array_neq (a b : array) : bool := negb (array_eq a b).

(** ** The 2-D prototype (first revision) *)

Module Legacy2D.

Record space2d := Space2d
  { start_i : Z; end_i : Z; start_j : Z; end_j : Z }.

(** [space2d::operator!=], [s] being [*this] *)
Definition space2d_neq (s rhs : space2d) : bool :=
  negb (start_i rhs =? start_i s) || negb (start_j rhs =? start_j s)
  || negb (end_i rhs =? end_i s) || negb (end_j rhs =? end_j s).

Record iteration := Iteration
  { i : Z; j : Z;
    _order : option (Z * Z -> space2d -> Z * Z);
    _space : space2d }.

(** [iteration<2, spaceT>(spaceT s)] *)
Definition iteration_new (s : space2d) : iteration :=
  {| i := start_i s; j := start_j s; _order := None; _space := s |}.

(** [iteration<2, spaceT>::operator!=] *)
Definition iteration_neq (it rhs : iteration) : bool :=
  negb (i rhs =? i it) || negb (j rhs =? j it)
  || space2d_neq (_space rhs) (_space it).

(** [operator++]: [assert(_order); _order(i, j, _space)] *)
Definition advance (it : iteration) : option iteration :=
  match _order it with
  | Some f =>
      let '(i', j') := f (i it, j it) (_space it) in
      Some {| i := i'; j := j'; _order := _order it; _space := _space it |}
  | None => None
  end.

(** [operator*] *)
Definition deref (it : iteration) : Z * Z := (i it, j it).

(** [_rm_order::next] *)
Definition next (ij : Z * Z) (space : space2d) : Z * Z :=
  let '(i, j) := ij in
  let i := int_wrap (i + 1) in
  if i >=? end_i space then
    let i := start_i space in
    let j := int_wrap (j + 1) in
    if j >=? end_j space then (end_i space, end_j space) else (i, j)
  else (i, j).

(** [_rm_order::begin] *)
Definition rm_begin (s : space2d) : iteration :=
  {| i := start_i s; j := start_j s; _order := Some next; _space := s |}.

(** [_rm_order::end] *)
Definition rm_end (s : space2d) : iteration :=
  {| i := end_i s; j := end_j s; _order := Some next; _space := s |}.

(** The constructor of [_static_partition], on the space of the wrapped
    order.  [None]: the division [size / threads] traps. *)
Definition _static_partition (id threads : Z) (s : space2d)
  : option space2d :=
  let size := int_wrap (end_i s - start_i s) in
  if int_div_traps size threads then None
  else
    let start_i' := int_wrap (size ÷ threads * id) in
    let end_i' :=
      if negb (id =? int_wrap (threads - 1))
      then int_wrap (size ÷ threads * int_wrap (id + 1))
      else end_i s in
    Some {| start_i := start_i'; end_i := end_i';
            start_j := start_j s; end_j := end_j s |}.

(** The range-based [for]: [for (it = begin; it != end; ++it)], each round
    handing [operator*] of the cursor to the body.  [None] when the fuel
    runs out or [operator++] finds no order. *)
Fixpoint for_loop (fuel : nat) (it e : iteration) : option (list (Z * Z)) :=
  match fuel with
  | O => None
  | S fuel' =>
      if iteration_neq it e then
        match advance it with
        | Some it' => cons (deref it) <$> for_loop fuel' it' e
        | None => None
        end
      else Some []
  end.

End Legacy2D.

(** ** The generic version (second revision) *)

Record dense_space := DenseSpace { start : array; limit : array }.

(** [impl::dense_space<DIM>::init<N>], called by the constructor: the
    arguments are [start_0, limit_0, start_1, limit_1, ...]; the
    [static_assert]s accept nothing but [2 * DIM] of them. *)
Fixpoint init (args : list Z) : option dense_space :=
  match args with
  | [_start; _end] => Some (DenseSpace [_start] [_end])
  | _start :: _end :: args' =>
      (λ s, DenseSpace (_start :: start s) (_end :: limit s)) <$> init args'
  | _ => None
  end.

(** [impl::dense_space::operator!=], [s] being [*this] *)
Definition dense_space_neq (s rhs : dense_space) : bool :=
  array_neq (start rhs) (start s) || array_neq (limit rhs) (limit s).

Record iteration := Iteration
  { index : array;
    order : option (array -> dense_space -> array);
    _space : dense_space }.

(** [iteration<DIM, spaceT>(const spaceT &s)] *)
Definition iteration_new (s : dense_space) : iteration :=
  {| index := start s; order := None; _space := s |}.

(** [iteration::operator!=] *)
Definition iteration_neq (it rhs : iteration) : bool :=
  array_neq (index rhs) (index it) || dense_space_neq (_space rhs) (_space it).

(** Two cursors are equal when [operator!=] answers [false]. *)
Definition iteration_equal (it rhs : iteration) : Prop :=
  iteration_neq it rhs = false.

(** [iteration::operator++]: [assert(order); order(index, _space)] *)
Definition advance (it : iteration) : option iteration :=
  match order it with
  | Some f =>
      Some {| index := f (index it) (_space it);
              order := order it; _space := _space it |}
  | None => None
  end.

(** [impl::array_to_tuple<N, T>::get] *)
Fixpoint array_to_tuple (N : nat) (arr : array) : list Z :=
  match N with
  | O => []
  | S N' => arr !!! (length arr - N)%nat :: array_to_tuple N' arr
  end.

(** [impl::dense_space::begin] and [impl::dense_space::end] *)
Definition dense_space_begin (s : dense_space) : iteration :=
  {| index := start s; order := None; _space := s |}.
Definition dense_space_end (s : dense_space) : iteration :=
  {| index := limit s; order := None; _space := s |}.

(** [impl::rm_next<N, T, spaceT>::get]; [N = 1] is the specialisation, and
    [N = 0] is never instantiated. *)
Fixpoint rm_next (N : nat) (arr : array) (space : dense_space) : array :=
  match N with
  | O => arr
  | S N' =>
      let index := N' in
      let arr := pre_incr arr index in
      if arr !!! index >=? limit space !!! index then
        match N' with
        | O => limit space
        | S _ => rm_next N' (<[index := start space !!! index]> arr) space
        end
      else arr
  end.

Section Dim.

(** The template parameter [DIM] ([spaceT::dim]). *)
Variable DIM : nat.

(** [iteration::operator*] *)
Definition deref (it : iteration) : list Z := array_to_tuple DIM (index it).

(** [impl::cm_next<N, T, spaceT>::get] *)
Fixpoint cm_next (N : nat) (arr : array) (space : dense_space) : array :=
  match N with
  | O => arr
  | S N' =>
      let index := (DIM - N)%nat in
      let arr := pre_incr arr index in
      if arr !!! index >=? limit space !!! index then
        match N' with
        | O => limit space
        | S _ => cm_next N' (<[index := start space !!! index]> arr) space
        end
      else arr
  end.

(** [impl::cm_order::begin] and [impl::cm_order::end] *)
Definition cm_begin (s : dense_space) : iteration :=
  {| index := start s; order := Some (cm_next DIM); _space := s |}.
Definition cm_end (s : dense_space) : iteration :=
  {| index := limit s; order := Some (cm_next DIM); _space := s |}.

(** [impl::rm_order::begin] and [impl::rm_order::end] *)
Definition rm_begin (s : dense_space) : iteration :=
  {| index := start s; order := Some (rm_next DIM); _space := s |}.
Definition rm_end (s : dense_space) : iteration :=
  {| index := limit s; order := Some (rm_next DIM); _space := s |}.

(** [impl::static_partition::partition], applied to a copy of the space.
    [None]: [dim] indexes outside the arrays, or the division
    [size / threads] traps. *)
Definition static_partition (dim id threads : Z) (o : dense_space)
  : option dense_space :=
  if negb ((0 <=? dim) && (dim <? Z.of_nat DIM)) then None
  else
    let d := Z.to_nat dim in
    let size := int_wrap (limit o !!! d - start o !!! d) in
    if int_div_traps size threads then None
    else
      let start' := <[d := int_wrap (size ÷ threads * id)]> (start o) in
      let limit' :=
        if negb (id =? int_wrap (threads - 1))
        then <[d := int_wrap (size ÷ threads * int_wrap (id + 1))]> (limit o)
        else limit o in
      Some {| start := start'; limit := limit' |}.

(** The range-based [for]: [for (it = begin; it != end; ++it)], collecting
    the values of [operator*] handed to the body.  [None] when the fuel
    runs out or [operator++] finds no order. *)
Fixpoint for_loop (fuel : nat) (it e : iteration) : option (list (list Z)) :=
  match fuel with
  | O => None
  | S fuel' =>
      if iteration_neq it e then
        match advance it with
        | Some it' => cons (deref it) <$> for_loop fuel' it' e
        | None => None
        end
      else Some []
  end.

(** [for (auto x : rm_order(s))] and [for (auto x : cm_order(s))] *)
Definition rm_loop (fuel : nat) (s : dense_space) :=
  for_loop fuel (rm_begin s) (rm_end s).
Definition cm_loop (fuel : nat) (s : dense_space) :=
  for_loop fuel (cm_begin s) (cm_end s).

(** A value of type [dense_space<DIM>]: two arrays of [DIM] ints. *)
Definition space_ok (s : dense_space) : Prop :=
  length (start s) = DIM ∧ length (limit s) = DIM
  ∧ Forall in_int (start s) ∧ Forall in_int (limit s).

End Dim.


(** ** Specification-level notions *)

(** The extents [limit[d] - start[d]] of a space and their product. *)
Definition extents (s : dense_space) : list Z :=
  zip_with Z.sub (limit s) (start s).
Definition product (l : list Z) : Z := foldr Z.mul 1 l.
Definition volume (s : dense_space) : Z := product (extents s).

(** [idx] lies in the cartesian product
    [[start_0, limit_0) x ... x [start_{D-1}, limit_{D-1})]. *)
Definition in_box (ss ls idx : list Z) : Prop :=
  Forall3 (λ lo hi x, lo <= x < hi) ss ls idx.
Definition in_space (s : dense_space) (idx : list Z) : Prop :=
  in_box (start s) (limit s) idx.

(** Every extent is strictly positive. *)
Definition all_positive (s : dense_space) : Prop :=
  Forall2 (λ lo hi, lo < hi) (start s) (limit s).

(** One odometer step over the digits [xs], first digit fastest, with the
    per-digit bounds [ss] and [ls]; [None] when the carry leaves the last
    digit.  Both successor functions are instances of it. *)
Fixpoint carry (ss ls xs : list Z) : option (list Z) :=
  match ss, ls, xs with
  | s :: ss', l :: ls', x :: xs' =>
      if int_wrap (x + 1) >=? l then cons s <$> carry ss' ls' xs'
      else Some (int_wrap (x + 1) :: xs')
  | _, _, _ => None
  end.

(** The indices [s :: r], [s + 1 :: r], ..., [l - 1 :: r]. *)
Definition block (s l : Z) (r : list Z) : list (list Z) :=
  (λ x, x :: r) <$> seqZ s (l - s).

(** The cartesian product of the ranges, first digit fastest. *)
Fixpoint enum (ss ls : list Z) : list (list Z) :=
  match ss, ls with
  | s :: ss', l :: ls' => enum ss' ls' ≫= block s l
  | _, _ => [[]]
  end.

(** [a :: l] is a complete run of the partial step [f]: each element is the
    step of the one before, and the last one has no successor. *)
Fixpoint follows {A} (f : A → option A) (a : A) (l : list A) : Prop :=
  match l with
  | [] => f a = None
  | b :: l' => f a = Some b ∧ follows f b l'
  end.

(** What the loop is expected to hand out under column-major order (first
    dimension fastest) and under row-major order (last dimension fastest). *)
Definition cm_visited (s : dense_space) : list (list Z) :=
  enum (start s) (limit s).
Definition rm_visited (s : dense_space) : list (list Z) :=
  reverse <$> enum (reverse (start s)) (reverse (limit s)).

(** A cursor of the space [s] bound to the successor [f], standing at [a]. *)
Definition cursor_at (f : list Z → dense_space → list Z) (s : dense_space)
    (a : list Z) : iteration :=
  {| index := a; order := Some f; _space := s |}.

(** ** Concrete spaces and sequences *)

(** [dense_space(1, 4, 1, 4)] and the two orders of its nine indices. *)
Definition space_3x3 : dense_space := DenseSpace [1; 1] [4; 4].

Definition first_fastest_3x3 : list (list Z) :=
  [[1;1]; [2;1]; [3;1]; [1;2]; [2;2]; [3;2]; [1;3]; [2;3]; [3;3]].

Definition last_fastest_3x3 : list (list Z) :=
  [[1;1]; [1;2]; [1;3]; [2;1]; [2;2]; [2;3]; [3;1]; [3;2]; [3;3]].

Definition pairs_3x3 : list (Z * Z) :=
  [(1,1); (2,1); (3,1); (1,2); (2,2); (3,2); (1,3); (2,3); (3,3)].

(** [space2d(1, 4, 1, 4)] of the prototype. *)
Definition space2d_3x3 : Legacy2D.space2d := Legacy2D.Space2d 1 4 1 4.

(** [dense_space(1, 1, 1, 4)]: dimension 0 is empty. *)
Definition space_0x3 : dense_space := DenseSpace [1; 1] [1; 4].

(** [dense_space(0, INT_MAX)] *)
Definition space_to_int_max : dense_space := DenseSpace [0] [2147483647].

(** The spaces of the two [main] functions: [dense_space(1, 99, 1, 99)] and
    [space2d(1, 99, 1, 99)]. *)
Definition main_space : dense_space := DenseSpace [1; 1] [99; 99].

Definition main_space2d : Legacy2D.space2d := Legacy2D.Space2d 1 99 1 99.

(** [x] lies in the range of [p] along dimension [d]. *)
Definition in_slice (p : dense_space) (d : nat) (x : Z) : Prop :=
  start p !!! d <= x < limit p !!! d.

(** The nested loops [for x0 in [s0, l0): for x1 in [s1, l1): ...] written
    by hand, the first dimension outermost: the indices in the order in
    which the innermost body sees them. *)
Fixpoint nested_loops (ss ls : list Z) : list (list Z) :=
  match ss, ls with
  | s :: ss', l :: ls' =>
      seqZ s (l - s) ≫= λ x, cons x <$> nested_loops ss' ls'
  | _, _ => [[]]
  end.

(** The space with its dimensions in reverse order. *)
Definition reverse_space (s : dense_space) : dense_space :=
  {| start := reverse (start s); limit := reverse (limit s) |}.

(** The constructor arguments of a space:
    [start_0, limit_0, start_1, limit_1, ...]. *)
Fixpoint interleave (ss ls : list Z) : list Z :=
  match ss, ls with
  | s :: ss', l :: ls' => s :: l :: interleave ss' ls'
  | _, _ => []
  end.

(** The generic space with the bounds of a 2-D prototype space, and back. *)
Definition space_of_2d (sp : Legacy2D.space2d) : dense_space :=
  {| start := [Legacy2D.start_i sp; Legacy2D.start_j sp];
     limit := [Legacy2D.end_i sp; Legacy2D.end_j sp] |}.
Definition space2d_of (s : dense_space) : Legacy2D.space2d :=
  {| Legacy2D.start_i := start s !!! 0%nat;
     Legacy2D.end_i := limit s !!! 0%nat;
     Legacy2D.start_j := start s !!! 1%nat;
     Legacy2D.end_j := limit s !!! 1%nat |}.

(** The pair [(i, j)] of a 2-D index array. *)
Definition pair_of_index (idx : list Z) : Z * Z :=
  (idx !!! 0%nat, idx !!! 1%nat).

(** ** Basic facts *)

Lemma int_wrap_id z : in_int z → int_wrap z = z.
Proof.
  unfold in_int, int_min, int_max, int_wrap. intros Hz.
  rewrite Z.mod_small; lia.
Qed.

Lemma int_div_traps_pos a b : 1 <= b → int_div_traps a b = false.
Proof.
  intros Hb. unfold int_div_traps.
  destruct (Z.eqb_spec b 0); [lia|]. destruct (Z.eqb_spec b (-1)); [lia|].
  by rewrite andb_false_r.
Qed.

Lemma array_eq_spec a b : array_eq a b = true ↔ a = b.
Proof.
  revert b. induction a as [|x a IH]; intros [|y b]; simpl; try easy.
  rewrite andb_true_iff, Z.eqb_eq, IH. split.
  - intros [-> ->]. reflexivity.
  - intros [= -> ->]. auto.
Qed.

Lemma array_neq_false a b : array_neq a b = false ↔ a = b.
Proof. unfold array_neq. rewrite negb_false_iff. apply array_eq_spec. Qed.

Lemma array_neq_true a b : array_neq a b = true ↔ a ≠ b.
Proof.
  unfold array_neq. rewrite negb_true_iff, <- not_true_iff_false.
  by rewrite array_eq_spec.
Qed.

Lemma dense_space_neq_false s t : dense_space_neq s t = false ↔ s = t.
Proof.
  unfold dense_space_neq. rewrite orb_false_iff, !array_neq_false.
  destruct s, t; simpl. split.
  - intros [-> ->]. reflexivity.
  - intros [= -> ->]. auto.
Qed.

Lemma array_to_tuple_drop N arr :
  (N ≤ length arr)%nat → array_to_tuple N arr = drop (length arr - N) arr.
Proof.
  induction N as [|N IH]; intros HN; simpl.
  - by rewrite Nat.sub_0_r, drop_all.
  - rewrite IH by lia.
    destruct (lookup_lt_is_Some_2 arr (length arr - S N)) as [x Hx]; [lia|].
    rewrite (list_lookup_total_correct _ _ _ Hx).
    rewrite (drop_S _ _ _ Hx). f_equal. f_equal. lia.
Qed.

Lemma array_to_tuple_id arr : array_to_tuple (length arr) arr = arr.
Proof. rewrite array_to_tuple_drop by lia. by rewrite Nat.sub_diag. Qed.

Lemma pre_incr_middle pre x post :
  pre_incr (pre ++ x :: post) (length pre) = pre ++ int_wrap (x + 1) :: post.
Proof.
  unfold pre_incr. rewrite list_lookup_total_middle by done.
  rewrite insert_app_r_alt by lia. by rewrite Nat.sub_diag.
Qed.

Lemma insert_middle pre (x y : Z) post :
  <[length pre := y]> (pre ++ x :: post) = pre ++ y :: post.
Proof. rewrite insert_app_r_alt by lia. by rewrite Nat.sub_diag. Qed.

(** ** The successor functions are odometer steps *)

Lemma cm_next_carry DIM xs : ∀ pre ps pl ss ls,
  xs ≠ [] → (length pre + length xs = DIM)%nat →
  length ps = length pre → length pl = length pre →
  length ss = length xs → length ls = length xs →
  cm_next DIM (length xs) (pre ++ xs) (DenseSpace (ps ++ ss) (pl ++ ls))
  = from_option (app pre) (pl ++ ls) (carry ss ls xs).
Proof.
  induction xs as [|x xs IH]; intros pre ps pl ss ls Hne HD Hps Hpl Hss Hls;
    [done|].
  destruct ss as [|s ss]; [done|]. destruct ls as [|l ls]; [done|].
  simpl in HD, Hss, Hls.
  change (length (x :: xs)) with (S (length xs)). cbn [cm_next carry].
  replace (DIM - S (length xs))%nat with (length pre) by lia.
  rewrite pre_incr_middle, list_lookup_total_middle by done.
  cbn [limit start]. rewrite list_lookup_total_middle by done.
  destruct (int_wrap (x + 1) >=? l); [|done].
  rewrite insert_middle, list_lookup_total_middle by done.
  destruct xs as [|x' xs].
  - simpl. by destruct ss, ls.
  - rewrite (cons_middle s ps ss), (cons_middle l pl ls), (cons_middle s pre).
    rewrite !app_assoc.
    rewrite IH; [|done|rewrite length_app; simpl in *; lia
                 |rewrite !length_app; simpl; lia..|lia|lia].
    rewrite <- !app_assoc. simpl.
    destruct (carry ss ls (x' :: xs)); simpl; [|done].
    by rewrite <- app_assoc.
Qed.

Lemma lookup_total_at (pre : list Z) x post n :
  n = length pre → (pre ++ x :: post) !!! n = x.
Proof. intros ->. by rewrite list_lookup_total_middle. Qed.

Lemma pre_incr_at pre x post n :
  n = length pre →
  pre_incr (pre ++ x :: post) n = pre ++ int_wrap (x + 1) :: post.
Proof. intros ->. apply pre_incr_middle. Qed.

Lemma insert_at pre (x y : Z) post n :
  n = length pre → <[n := y]> (pre ++ x :: post) = pre ++ y :: post.
Proof. intros ->. apply insert_middle. Qed.

Lemma rm_next_carry xs : ∀ post ps pl ss ls,
  xs ≠ [] → length ss = length xs → length ls = length xs →
  rm_next (length xs) (reverse xs ++ post)
    (DenseSpace (reverse ss ++ ps) (reverse ls ++ pl))
  = from_option (λ r, reverse r ++ post) (reverse ls ++ pl) (carry ss ls xs).
Proof.
  induction xs as [|x xs IH]; intros post ps pl ss ls Hne Hss Hls; [done|].
  destruct ss as [|s ss]; [done|]. destruct ls as [|l ls]; [done|].
  simpl in Hss, Hls.
  change (length (x :: xs)) with (S (length xs)). cbn [rm_next carry].
  rewrite !reverse_cons, <- !app_assoc. simpl.
  rewrite (pre_incr_at (reverse xs)) by (rewrite length_reverse; lia).
  rewrite (lookup_total_at (reverse xs)) by (rewrite length_reverse; lia).
  rewrite (lookup_total_at (reverse ls)) by (rewrite length_reverse; lia).
  destruct (int_wrap (x + 1) >=? l);
    [|by simpl; rewrite reverse_cons, <- app_assoc].
  rewrite (insert_at (reverse xs)) by (rewrite length_reverse; lia).
  rewrite (lookup_total_at (reverse ss)) by (rewrite length_reverse; lia).
  destruct xs as [|x' xs].
  - simpl. by destruct ss, ls.
  - change (length (x' :: xs)) with (S (length xs)) at 1. cbv iota.
    change (S (length xs)) with (length (x' :: xs)).
    rewrite IH by (done || lia).
    destruct (carry ss ls (x' :: xs)); simpl.
    + by rewrite reverse_cons, <- app_assoc.
    + done.
Qed.

(** ** The enumeration is a complete run of the odometer *)

Section Block.
Variables (s l : Z) (ss ls : list Z).
Hypothesis Hs : in_int s.
Hypothesis Hl : in_int l.

Lemma follows_within r rest x (n : nat) :
  s <= x → l - 1 - x = Z.of_nat n →
  follows (carry (s :: ss) (l :: ls)) ((l - 1) :: r) rest →
  follows (carry (s :: ss) (l :: ls)) (x :: r)
    (((λ y, y :: r) <$> seqZ (x + 1) (l - 1 - x)) ++ rest).
Proof.
  revert x. induction n as [|n IH]; intros x Hx Hn Hrest.
  - rewrite seqZ_nil by lia. simpl. by replace x with (l - 1) by lia.
  - rewrite seqZ_cons by lia. cbn [fmap list_fmap app follows carry].
    assert (int_wrap (x + 1) = x + 1) as ->.
    { apply int_wrap_id. unfold in_int, int_min, int_max in *. lia. }
    destruct (Z.geb_spec (x + 1) l) as [?|_]; [lia|].
    split; [done|].
    replace (Z.pred (l - 1 - x)) with (l - 1 - (x + 1)) by lia.
    apply IH; [lia|lia|done].
Qed.

Lemma follows_blocks tl : ∀ r,
  s < l →
  follows (carry ss ls) r tl →
  follows (carry (s :: ss) (l :: ls)) ((l - 1) :: r) (tl ≫= block s l).
Proof.
  induction tl as [|b tl IH]; intros r Hsl Hr; simpl in Hr.
  - cbn [mbind list_bind follows carry].
    replace (l - 1 + 1) with l by lia. rewrite int_wrap_id by done.
    destruct (Z.geb_spec l l) as [_|?]; [|lia]. by rewrite Hr.
  - destruct Hr as [Hrb Hb]. rewrite bind_cons. unfold block at 1.
    rewrite seqZ_cons by lia. cbn [fmap list_fmap app follows carry].
    replace (l - 1 + 1) with l by lia. rewrite int_wrap_id by done.
    destruct (Z.geb_spec l l) as [_|?]; [|lia]. rewrite Hrb. split; [done|].
    replace (Z.succ s) with (s + 1) by lia.
    replace (Z.pred (l - s)) with (l - 1 - s) by lia.
    apply (follows_within _ _ _ (Z.to_nat (l - 1 - s))); [lia|lia|].
    by apply IH.
Qed.
End Block.

Lemma enum_follows ss ls :
  Forall2 (λ lo hi, lo < hi) ss ls → Forall in_int ss → Forall in_int ls →
  ∃ tl, enum ss ls = ss :: tl ∧ follows (carry ss ls) ss tl.
Proof.
  induction 1 as [|s l ss ls Hsl _ IH]; intros Hss Hls.
  - by exists [].
  - apply Forall_cons in Hss as [Hs Hss]. apply Forall_cons in Hls as [Hl Hls].
    destruct (IH Hss Hls) as (tl & Htl & Hf). cbn [enum]. rewrite Htl.
    rewrite bind_cons.
    pose proof (follows_blocks s l ss ls Hs Hl tl ss Hsl Hf) as Hrest.
    revert Hrest. generalize (tl ≫= block s l).
    intros rest Hrest. unfold block. rewrite seqZ_cons by lia.
    cbn [fmap list_fmap app].
    eexists. split; [reflexivity|].
    replace (Z.succ s) with (s + 1) by lia.
    replace (Z.pred (l - s)) with (l - 1 - s) by lia.
    by apply (follows_within _ _ _ _ Hs Hl _ _ _ (Z.to_nat (l - 1 - s)));
      [lia|lia|].
Qed.

(** ** What the enumeration contains *)

Lemma elem_of_enum ss : ∀ ls idx,
  length ss = length ls → idx ∈ enum ss ls ↔ in_box ss ls idx.
Proof.
  unfold in_box.
  induction ss as [|s ss IH]; intros [|l ls] idx Hlen; try done.
  - simpl. rewrite list_elem_of_singleton. split.
    + intros ->. constructor.
    + by inv 1.
  - cbn [enum]. rewrite list_elem_of_bind. unfold block. split.
    + intros (r & (x & -> & Hx)%list_elem_of_fmap & Hr).
      apply elem_of_seqZ in Hx. apply IH in Hr; [|simpl in Hlen; lia].
      constructor; [lia|done].
    + inv 1 as [|? ? x ? ? r Hx Hr]. exists r. split.
      * apply list_elem_of_fmap. exists x. split; [done|].
        apply elem_of_seqZ. lia.
      * apply IH; [simpl in Hlen; lia|done].
Qed.

Lemma NoDup_enum ss : ∀ ls, NoDup (enum ss ls).
Proof.
  induction ss as [|s ss IH]; intros [|l ls]; try apply NoDup_singleton.
  cbn [enum]. apply NoDup_bind; [| |apply IH].
  - intros r1 r2 y _ _ (x1 & -> & _)%list_elem_of_fmap
      (x2 & [= _ ->] & _)%list_elem_of_fmap. done.
  - intros r _. apply NoDup_fmap_2; [|apply NoDup_seqZ].
    by intros x1 x2 [= ->].
Qed.

Lemma product_app a b : product (a ++ b) = product a * product b.
Proof.
  unfold product. induction a as [|x a IH]; simpl; [lia|]. rewrite IH. lia.
Qed.

Lemma product_reverse l : product (reverse l) = product l.
Proof.
  induction l as [|x l IH]; [done|].
  rewrite reverse_cons, product_app, IH. unfold product. simpl. lia.
Qed.

Lemma length_bind_const {A B} (f : A → list B) (n : nat) l :
  (∀ x, length (f x) = n) → length (l ≫= f) = (length l * n)%nat.
Proof.
  intros Hf. induction l as [|x l IH]; [done|].
  rewrite bind_cons, length_app, Hf, IH. simpl. lia.
Qed.

Lemma length_enum ss ls :
  Forall2 (λ lo hi, lo < hi) ss ls →
  Z.of_nat (length (enum ss ls)) = product (zip_with Z.sub ls ss).
Proof.
  induction 1 as [|s l ss ls Hsl _ IH]; [done|].
  cbn [enum]. rewrite (length_bind_const _ (Z.to_nat (l - s))).
  - unfold product in *. simpl. rewrite <- IH. lia.
  - intros r. unfold block. by rewrite length_fmap, length_seqZ.
Qed.

Lemma zip_with_sub_reverse (ls ss : list Z) :
  length ls = length ss →
  zip_with Z.sub (reverse ls) (reverse ss) = reverse (zip_with Z.sub ls ss).
Proof.
  revert ss. induction ls as [|l ls IH]; intros [|s ss] Hlen; try done.
  simpl in Hlen. rewrite !reverse_cons, zip_with_app, IH by
    (rewrite ?length_reverse; lia).
  simpl. by rewrite reverse_cons.
Qed.

Lemma in_box_reverse_1 ss ls idx :
  in_box ss ls idx → in_box (reverse ss) (reverse ls) (reverse idx).
Proof.
  unfold in_box. induction 1 as [|s l x ss ls idx Hx _ IH]; [constructor|].
  rewrite !reverse_cons. apply Forall3_app; [done|].
  constructor; [done|constructor].
Qed.

Lemma in_box_reverse ss ls idx :
  in_box (reverse ss) (reverse ls) (reverse idx) ↔ in_box ss ls idx.
Proof.
  split; [|apply in_box_reverse_1].
  intros H%in_box_reverse_1. by rewrite !reverse_involutive in H.
Qed.

(** ** Running the loop along a complete run *)

Lemma follows_fmap_reverse (step : list Z → option (list Z)) tl : ∀ a,
  follows step a tl →
  follows (λ x, reverse <$> step (reverse x)) (reverse a) (reverse <$> tl).
Proof.
  induction tl as [|b tl IH]; intros a; simpl; rewrite reverse_involutive.
  - by intros ->.
  - intros [-> Hb]. split; [done|]. by apply IH.
Qed.

Section Loop.
Variable DIM : nat.
Variable f : list Z → dense_space → list Z.
Variable s : dense_space.
Variable step : list Z → option (list Z).

Lemma for_loop_at_end fuel :
  for_loop DIM (S fuel) (cursor_at f s (limit s)) (cursor_at f s (limit s))
  = Some [].
Proof.
  unfold cursor_at. simpl. unfold iteration_neq. simpl.
  assert (array_neq (limit s) (limit s) = false) as ->
    by by apply array_neq_false.
  assert (dense_space_neq s s = false) as -> by by apply dense_space_neq_false.
  done.
Qed.

Lemma for_loop_follows tl : ∀ a fuel,
  follows step a tl →
  (∀ x, x ∈ a :: tl →
     length x = DIM ∧ x ≠ limit s
     ∧ f x s = from_option id (limit s) (step x)) →
  (length (a :: tl) < fuel)%nat →
  for_loop DIM fuel (cursor_at f s a) (cursor_at f s (limit s))
  = Some (a :: tl).
Proof.
  induction tl as [|b tl IH]; intros a fuel Hrun Hall Hfuel;
    (destruct fuel as [|fuel]; [simpl in Hfuel; lia|]);
    destruct (Hall a) as (Hlen & Hne & Hf); try by left.
  all: cbn [for_loop]; unfold iteration_neq, cursor_at;
    cbn [index _space].
  all: assert (array_neq (limit s) a = true) as ->
         by by apply array_neq_true.
  all: cbn [orb advance order index _space]; unfold deref; cbn [index].
  all: rewrite <- Hlen at 1; rewrite array_to_tuple_id, Hf.
  - simpl in Hrun. rewrite Hrun. cbn [from_option].
    destruct fuel as [|fuel]; [simpl in Hfuel; lia|].
    fold (cursor_at f s (limit s)).
    by rewrite (for_loop_at_end fuel).
  - destruct Hrun as [-> Hrun]. cbn [from_option id].
    fold (cursor_at f s b) (cursor_at f s (limit s)).
    rewrite IH; [done|done| |simpl in *; lia].
    intros x Hx. apply Hall. by right.
Qed.
End Loop.

(** ** The two orders visit their enumerations *)

Lemma in_box_length ss ls idx : in_box ss ls idx → length idx = length ss.
Proof. intros H. symmetry. exact (Forall3_length_lr _ _ _ _ H). Qed.

Lemma in_box_not_limit ss ls : ss ≠ [] → ¬ in_box ss ls ls.
Proof. intros Hne H. inv H; done || lia. Qed.

Section Visits.
Variable DIM : nat.
Variable s : dense_space.
Hypothesis Hdim : DIM ≠ 0%nat.
Hypothesis Hok : space_ok DIM s.
Hypothesis Hpos : all_positive s.

Lemma cm_loop_visited fuel :
  (length (cm_visited s) < fuel)%nat →
  cm_loop DIM fuel s = Some (cm_visited s).
Proof.
  destruct s as [ss ls]. destruct Hok as (Hss & Hls & Hiss & Hils).
  unfold all_positive, cm_visited, cm_loop in *. simpl in *.
  destruct (enum_follows ss ls Hpos Hiss Hils) as (tl & Htl & Hrun).
  rewrite Htl. intros Hfuel.
  apply (for_loop_follows DIM (cm_next DIM DIM) (DenseSpace ss ls) _ tl ss
           fuel Hrun); [|done].
  intros x Hx. rewrite <- Htl in Hx.
  apply elem_of_enum in Hx; [|lia].
  pose proof (in_box_length _ _ _ Hx) as Hlen.
  split; [lia|]. split.
  - intros ->. revert Hx. apply in_box_not_limit. by destruct ss.
  - simpl. replace DIM with (length x) at 2 by lia.
    pose proof (cm_next_carry DIM x [] [] [] ss ls) as Hc. simpl in Hc.
    rewrite Hc; try lia.
    + by destruct (carry ss ls x).
    + destruct x; [simpl in *; lia|done].
Qed.

Lemma rm_loop_visited fuel :
  (length (rm_visited s) < fuel)%nat →
  rm_loop DIM fuel s = Some (rm_visited s).
Proof.
  destruct s as [ss ls]. destruct Hok as (Hss & Hls & Hiss & Hils).
  unfold all_positive, rm_visited, rm_loop in *. simpl in *.
  destruct (enum_follows (reverse ss) (reverse ls)) as (tl & Htl & Hrun).
  { by apply Forall2_reverse. }
  { by apply Forall_reverse. }
  { by apply Forall_reverse. }
  rewrite Htl, fmap_cons, reverse_involutive. intros Hfuel.
  apply follows_fmap_reverse in Hrun. rewrite reverse_involutive in Hrun.
  apply (for_loop_follows DIM (rm_next DIM) (DenseSpace ss ls) _ _ ss
           fuel Hrun); [|done].
  intros x Hx.
  assert (reverse x ∈ enum (reverse ss) (reverse ls)) as Hin.
  { rewrite Htl. rewrite <- (reverse_involutive ss) in Hx at 1.
    change (reverse (reverse ss) :: (reverse <$> tl))
      with (reverse <$> (reverse ss :: tl)) in Hx.
    apply list_elem_of_fmap in Hx as (y & -> & Hy).
    by rewrite reverse_involutive. }
  apply elem_of_enum in Hin; [|rewrite !length_reverse; lia].
  apply (proj1 (in_box_reverse _ _ _)) in Hin.
  pose proof (in_box_length _ _ _ Hin) as Hlen.
  split; [lia|]. split.
  - intros ->. revert Hin. apply in_box_not_limit. by destruct ss.
  - simpl.
    replace DIM with (length (reverse x)) by (rewrite length_reverse; lia).
    pose proof (rm_next_carry (reverse x) [] [] [] (reverse ss) (reverse ls))
      as Hc.
    rewrite !reverse_involutive, !app_nil_r in Hc. rewrite Hc.
    + by destruct (carry (reverse ss) (reverse ls) (reverse x)); simpl;
        rewrite ?app_nil_r.
    + destruct x; [simpl in *; lia|]. rewrite reverse_cons.
      by destruct (reverse x).
    + rewrite !length_reverse. lia.
    + rewrite !length_reverse. lia.
Qed.
End Visits.

(** ** The visited lists and the cartesian product *)

Section Visited.
Variable s : dense_space.
Hypothesis Hlen : length (start s) = length (limit s).

Lemma elem_of_cm_visited idx : idx ∈ cm_visited s ↔ in_space s idx.
Proof. by apply elem_of_enum. Qed.

Lemma elem_of_rm_visited idx : idx ∈ rm_visited s ↔ in_space s idx.
Proof.
  unfold rm_visited, in_space. rewrite <- in_box_reverse, <- elem_of_enum
    by (by rewrite !length_reverse).
  rewrite list_elem_of_fmap. split.
  - intros (y & -> & Hy). by rewrite reverse_involutive.
  - intros Hin. exists (reverse idx). by rewrite reverse_involutive.
Qed.

Lemma NoDup_cm_visited : NoDup (cm_visited s).
Proof. apply NoDup_enum. Qed.

Lemma NoDup_rm_visited : NoDup (rm_visited s).
Proof.
  apply NoDup_fmap_2; [|apply NoDup_enum].
  intros x y Hxy. by rewrite <- (reverse_involutive x), Hxy, reverse_involutive.
Qed.

Hypothesis Hpos : all_positive s.

Lemma length_cm_visited : Z.of_nat (length (cm_visited s)) = volume s.
Proof. by apply length_enum. Qed.

Lemma length_rm_visited : Z.of_nat (length (rm_visited s)) = volume s.
Proof.
  unfold rm_visited, volume, extents. rewrite length_fmap, length_enum
    by (by apply Forall2_reverse).
  by rewrite zip_with_sub_reverse, product_reverse.
Qed.
End Visited.

(** ** Cursors, the terminal index and the partition arithmetic *)

Lemma concrete_spaces_init :
  init [1; 4; 1; 4] = Some space_3x3 ∧ init [1; 1; 1; 4] = Some space_0x3
  ∧ init [0; 2147483647] = Some space_to_int_max
  ∧ init [1; 99; 1; 99] = Some main_space.
Proof. by split_and!. Qed.

Lemma space_3x3_ok : space_ok 2 space_3x3.
Proof.
  unfold space_ok, space_3x3, in_int, int_min, int_max. simpl.
  repeat split; repeat constructor; lia.
Qed.

Lemma space_3x3_positive : all_positive space_3x3.
Proof. unfold all_positive, space_3x3. simpl. repeat constructor; lia. Qed.

(** The begin cursor equals the end cursor only when [start] and [limit]
    agree in every dimension. *)
Lemma begin_equal_end_iff (DIM : nat) (s : dense_space) :
  (iteration_equal (rm_begin DIM s) (rm_end DIM s) ↔ start s = limit s)
  ∧ (iteration_equal (cm_begin DIM s) (cm_end DIM s) ↔ start s = limit s).
Proof.
  unfold iteration_equal, iteration_neq. simpl.
  assert (dense_space_neq s s = false) as -> by by apply dense_space_neq_false.
  rewrite orb_false_r, array_neq_false. split; split; congruence.
Qed.

Lemma carry_at_limit ss : ∀ ls,
  Forall in_int ls → Forall (λ l, l < int_max) ls → carry ss ls ls = None.
Proof.
  induction ss as [|s ss IH]; intros [|l ls] Hin Hlt; try done.
  apply Forall_cons in Hin as [Hl Hin]. apply Forall_cons in Hlt as [Hm Hlt].
  cbn [carry].
  rewrite int_wrap_id by (unfold in_int, int_min, int_max in *; lia).
  destruct (Z.geb_spec (l + 1) l) as [_|?]; [|lia]. by rewrite IH.
Qed.

(** What [partition] stores when nothing overflows: the new bounds are
    multiples of [size / threads] counted from zero, not from
    [start[dim]]. *)
Lemma static_partition_value (DIM : nat) (dim id threads : Z)
    (o : dense_space) :
  0 <= dim < Z.of_nat DIM → 0 <= id < threads → in_int threads →
  let d := Z.to_nat dim in
  let size := limit o !!! d - start o !!! d in
  0 <= size <= int_max →
  static_partition DIM dim id threads o
  = Some {| start := <[d := size ÷ threads * id]> (start o);
            limit := if decide (id = threads - 1) then limit o
                     else <[d := size ÷ threads * (id + 1)]> (limit o) |}.
Proof.
  intros Hdim Hid Hthr d size Hsize. unfold static_partition.
  destruct (Z.leb_spec 0 dim); [|lia].
  destruct (Z.ltb_spec dim (Z.of_nat DIM)); [|lia].
  cbn [andb negb]. rewrite int_div_traps_pos by lia.
  fold d. fold size.
  assert (0 <= size ÷ threads) by (apply Z.quot_pos; lia).
  assert (threads * (size ÷ threads) <= size) by (apply Z.mul_quot_le; lia).
  unfold in_int, int_min, int_max in *.
  assert (∀ z, - 2 ^ 31 <= z <= 2 ^ 31 - 1 → int_wrap z = z) as Hw
    by (intros z Hz; by apply int_wrap_id).
  rewrite (Hw size) by lia.
  rewrite (Hw (size ÷ threads * id)) by nia.
  rewrite (Hw (threads - 1)) by lia.
  destruct (Z.eqb_spec id (threads - 1)); cbn [negb];
    (destruct (decide (id = threads - 1)); [|]); try lia; [done|].
  rewrite (Hw (id + 1)) by lia.
  rewrite (Hw (size ÷ threads * (id + 1))) by nia. done.
Qed.

(** X18. The slices the code hands to the workers, for a space whose range
    along [dim] starts at or above zero, cover [[0, limit[dim])]: they
    coincide with the range of the space only when [start[dim] = 0]. *)
Lemma partition_slices_union (DIM : nat) (dim threads : Z) (o : dense_space) :
  0 <= dim < Z.of_nat DIM → length (start o) = DIM → length (limit o) = DIM →
  1 <= threads → in_int threads →
  let d := Z.to_nat dim in
  0 <= start o !!! d → start o !!! d <= limit o !!! d →
  limit o !!! d <= int_max →
  ∀ x, (∃ id p, 0 <= id < threads
                ∧ static_partition DIM dim id threads o = Some p
                ∧ in_slice p d x)
       ↔ 0 <= x < limit o !!! d.
Proof.
  intros Hdim Hls Hll Hthr Hin d Hs0 Hsl Hl0 x.
  assert (d < length (start o))%nat as Hds by (unfold d; lia).
  assert (d < length (limit o))%nat as Hdl by (unfold d; lia).
  pose (size := limit o !!! d - start o !!! d).
  assert (0 <= size <= int_max) as Hsize by (unfold size; lia).
  assert (0 <= size ÷ threads) as Hq by (apply Z.quot_pos; lia).
  assert (threads * (size ÷ threads) <= size) as Hqt
    by (apply Z.mul_quot_le; lia).
  assert (∀ id, 0 <= id < threads →
            static_partition DIM dim id threads o
            = Some {| start := <[d := size ÷ threads * id]> (start o);
                      limit := if decide (id = threads - 1) then limit o
                               else <[d := size ÷ threads * (id + 1)]>
                                      (limit o) |}) as Hval.
  { intros id Hid. by apply static_partition_value. }
  split.
  - intros (id & p & Hid & Hp & Hx). rewrite (Hval id Hid) in Hp.
    injection Hp as <-. unfold in_slice in Hx. cbn [start limit] in Hx.
    rewrite list_lookup_total_insert_eq in Hx by done.
    destruct (decide (id = threads - 1)).
    + nia.
    + rewrite list_lookup_total_insert_eq in Hx by done. fold size in Hqt. nia.
  - intros Hx.
    destruct (Z.lt_ge_cases x (size ÷ threads * (threads - 1))) as [Hlt|Hge].
    + assert (0 < size ÷ threads) as Hqpos by nia.
      assert (0 <= x ÷ (size ÷ threads) < threads) as Hk.
      { split; [apply Z.quot_pos; lia|].
        assert (x ÷ (size ÷ threads) < threads - 1); [|lia].
        apply Z.quot_lt_upper_bound; lia. }
      assert (x ÷ (size ÷ threads) ≠ threads - 1) as Hk'.
      { assert (x ÷ (size ÷ threads) < threads - 1); [|lia].
        apply Z.quot_lt_upper_bound; lia. }
      exists (x ÷ (size ÷ threads)). eexists.
      split; [exact Hk|]. split; [by apply Hval|].
      unfold in_slice. cbn [start limit].
      destruct (decide (x ÷ (size ÷ threads) = threads - 1)); [lia|].
      rewrite !list_lookup_total_insert_eq by done.
      rewrite (Z.quot_div_nonneg x) by lia.
      pose proof (Z.div_mod x (size ÷ threads) ltac:(lia)).
      pose proof (Z.mod_pos_bound x (size ÷ threads) ltac:(lia)). nia.
    + exists (threads - 1). eexists.
      split; [lia|]. split; [apply Hval; lia|].
      unfold in_slice. cbn [start limit].
      destruct (decide (threads - 1 = threads - 1)); [|done].
      rewrite list_lookup_total_insert_eq by done. lia.
Qed.

(** * Main results *)

(** C1. On the space of [main] (start [1,1], limit [99,99]) split along
    dimension 0 between two workers, worker 0 receives start 0 and limit 49
    and worker 1 receives start 49 and limit 99; the 2-D prototype computes
    the same bounds for worker 0. *)
Theorem partition_main_space_bounds :
  static_partition 2 0 0 2 main_space = Some (DenseSpace [0; 1] [49; 99])
  ∧ static_partition 2 0 1 2 main_space = Some (DenseSpace [49; 1] [99; 99])
  ∧ Legacy2D._static_partition 0 2 main_space2d
    = Some (Legacy2D.Space2d 0 49 1 99).
Proof. split_and!; vm_compute; reflexivity. Qed.

(** C2. On the same space and worker count, the slices of the two workers
    along dimension 0 are [0, 49) and [49, 99): index 0 belongs to the slice
    of worker 0 although it lies outside the original interval [1, 99). *)
Theorem partition_main_space_covers_outside :
  ∃ p0 p1,
    static_partition 2 0 0 2 main_space = Some p0
    ∧ static_partition 2 0 1 2 main_space = Some p1
    ∧ (∀ x, in_slice p0 0 x ∨ in_slice p1 0 x ↔ 0 <= x < 99)
    ∧ in_slice p0 0 0
    ∧ ¬ in_slice main_space 0 0.
Proof.
  eexists _, _. split; [vm_compute; reflexivity|].
  split; [vm_compute; reflexivity|].
  unfold in_slice, main_space. simpl. split_and!; [intros x|..]; lia.
Qed.

(** C3. For a space of dimension [DIM >= 1] whose extents are all strictly
    positive, the driving loop under row-major order terminates (any fuel
    above the number of visited indices is enough), visits exactly
    [n_0 * ... * n_{DIM-1}] multi-indices, no index twice, and the visited
    indices are exactly those of the cartesian product of the ranges
    [[start_d, limit_d)]. *)
Theorem rm_loop_visits_cartesian_product (DIM : nat) (s : dense_space) :
  DIM ≠ 0%nat → space_ok DIM s → all_positive s →
  ∃ visited : list (list Z),
    (∀ fuel, (length visited < fuel)%nat → rm_loop DIM fuel s = Some visited)
    ∧ Z.of_nat (length visited) = volume s
    ∧ NoDup visited
    ∧ ∀ idx, idx ∈ visited ↔ in_space s idx.
Proof.
  intros Hdim Hok Hpos. exists (rm_visited s).
  assert (length (start s) = length (limit s)) as Hlen
    by (destruct Hok as (-> & -> & _); done).
  split_and!.
  - intros fuel. by apply rm_loop_visited.
  - by apply length_rm_visited.
  - apply NoDup_rm_visited.
  - intros idx. by apply elem_of_rm_visited.
Qed.

Lemma rm_loop_visits_cartesian_product_witness :
  space_ok 2 space_3x3 ∧ all_positive space_3x3 ∧
  ∃ visited : list (list Z),
    (∀ fuel, (length visited < fuel)%nat →
       rm_loop 2 fuel space_3x3 = Some visited)
    ∧ Z.of_nat (length visited) = volume space_3x3
    ∧ NoDup visited
    ∧ ∀ idx, idx ∈ visited ↔ in_space space_3x3 idx.
Proof.
  split; [exact space_3x3_ok|]. split; [exact space_3x3_positive|].
  apply (rm_loop_visits_cartesian_product 2 space_3x3).
  - lia.
  - exact space_3x3_ok.
  - exact space_3x3_positive.
Defined.

(** C4. On the space with start [1,1] and limit [4,4], row-major order (the
    last dimension fastest) does not yield (1,1),(2,1),(3,1),(1,2),...: no
    amount of fuel makes the loop return that sequence. *)
Lemma row_major_3x3_not_first_fastest :
  ¬ ∃ fuel, rm_loop 2 fuel space_3x3 = Some first_fastest_3x3.
Proof.
  intros [fuel H].
  do 10 (destruct fuel as [|fuel]; [vm_compute in H; discriminate|]).
  vm_compute in H. discriminate.
Qed.

(** C4, as amended. On the space with start [1,1] and limit [4,4] the loop
    under row-major order yields the nine indices
    (1,1),(1,2),(1,3),(2,1),(2,2),(2,3),(3,1),(3,2),(3,3), the last
    dimension varying fastest; the sequence (1,1),(2,1),(3,1),(1,2),... is
    the one of column-major order and of the 2-D prototype's
    [_rm_order::next]. *)
Theorem row_major_3x3_sequence (fuel : nat) :
  (9 < fuel)%nat →
  rm_loop 2 fuel space_3x3 = Some last_fastest_3x3
  ∧ cm_loop 2 fuel space_3x3 = Some first_fastest_3x3
  ∧ Legacy2D.for_loop fuel (Legacy2D.rm_begin space2d_3x3)
      (Legacy2D.rm_end space2d_3x3) = Some pairs_3x3.
Proof.
  intros Hfuel. do 10 (destruct fuel as [|fuel]; [lia|]).
  split_and!; vm_compute; reflexivity.
Qed.

Lemma row_major_3x3_sequence_witness :
  (9 < 10)%nat
  ∧ rm_loop 2 10 space_3x3 = Some last_fastest_3x3
  ∧ cm_loop 2 10 space_3x3 = Some first_fastest_3x3
  ∧ Legacy2D.for_loop 10 (Legacy2D.rm_begin space2d_3x3)
      (Legacy2D.rm_end space2d_3x3) = Some pairs_3x3.
Proof. split; [lia|]. apply (row_major_3x3_sequence 10). lia. Defined.

(** C5. On the space with start [1,1] and limit [1,4], whose dimension 0 has
    length zero, the begin cursor differs from the end cursor and the loop
    runs three times, under either order, over indices that are not in the
    space. *)
Theorem zero_length_dimension_iterates :
  iteration_neq (rm_begin 2 space_0x3) (rm_end 2 space_0x3) = true
  ∧ iteration_neq (cm_begin 2 space_0x3) (cm_end 2 space_0x3) = true
  ∧ rm_loop 2 4 space_0x3 = Some [[1;1]; [1;2]; [1;3]]
  ∧ cm_loop 2 4 space_0x3 = Some [[1;1]; [1;2]; [1;3]]
  ∧ ¬ in_space space_0x3 [1;1].
Proof.
  split_and!; try (vm_compute; reflexivity).
  unfold in_space, in_box, space_0x3. simpl. inv 1. lia.
Qed.

(** C6. For a split dimension of the space and a worker count
    [threads >= 1], the partition of the last worker, [threads - 1], keeps
    the limit array of the space, in particular [limit[dim]]; the 2-D
    prototype likewise keeps [end_i]. *)
Theorem last_worker_keeps_limit (DIM : nat) (dim threads : Z)
    (o : dense_space) (o2 : Legacy2D.space2d) :
  0 <= dim < Z.of_nat DIM → 1 <= threads → in_int threads →
  (∃ p, static_partition DIM dim (threads - 1) threads o = Some p
        ∧ limit p !!! Z.to_nat dim = limit o !!! Z.to_nat dim
        ∧ limit p = limit o)
  ∧ (∃ p2, Legacy2D._static_partition (threads - 1) threads o2 = Some p2
           ∧ Legacy2D.end_i p2 = Legacy2D.end_i o2).
Proof.
  intros Hdim Hthr Hin.
  unfold static_partition, Legacy2D._static_partition.
  destruct (Z.leb_spec 0 dim); [|lia].
  destruct (Z.ltb_spec dim (Z.of_nat DIM)); [|lia].
  cbn [andb negb]. rewrite !int_div_traps_pos by lia.
  rewrite (int_wrap_id (threads - 1))
    by (unfold in_int, int_min, int_max in *; lia).
  rewrite Z.eqb_refl. cbn [negb].
  split; eexists; (split; [reflexivity|]); done.
Qed.

Lemma last_worker_keeps_limit_witness :
  0 <= 0 < Z.of_nat 2 ∧ 1 <= 2 ∧ in_int 2
  ∧ (∃ p, static_partition 2 0 (2 - 1) 2 main_space = Some p
          ∧ limit p !!! Z.to_nat 0 = limit main_space !!! Z.to_nat 0
          ∧ limit p = limit main_space)
  ∧ (∃ p2, Legacy2D._static_partition (2 - 1) 2 main_space2d = Some p2
           ∧ Legacy2D.end_i p2 = Legacy2D.end_i main_space2d).
Proof.
  assert (in_int 2) as Hin by (unfold in_int, int_min, int_max; lia).
  split; [lia|]. split; [lia|]. split; [exact Hin|].
  apply (last_worker_keeps_limit 2 0 2 main_space main_space2d);
    [lia|lia|exact Hin].
Defined.

(** C7. For a space whose extents are all strictly positive, the indices
    visited under row-major order and those visited under column-major
    order are the same multiset: one list is a permutation of the other. *)
Theorem rm_cm_visit_same_multiset (DIM : nat) (s : dense_space) :
  DIM ≠ 0%nat → space_ok DIM s → all_positive s →
  ∃ rm cm : list (list Z),
    (∀ fuel, (length rm < fuel)%nat → rm_loop DIM fuel s = Some rm)
    ∧ (∀ fuel, (length cm < fuel)%nat → cm_loop DIM fuel s = Some cm)
    ∧ rm ≡ₚ cm.
Proof.
  intros Hdim Hok Hpos. exists (rm_visited s), (cm_visited s).
  assert (length (start s) = length (limit s)) as Hlen
    by (destruct Hok as (-> & -> & _); done).
  split_and!.
  - intros fuel. by apply rm_loop_visited.
  - intros fuel. by apply cm_loop_visited.
  - apply NoDup_Permutation.
    + apply NoDup_rm_visited.
    + apply NoDup_cm_visited.
    + intros idx. by rewrite elem_of_rm_visited, elem_of_cm_visited.
Qed.

Lemma rm_cm_visit_same_multiset_witness :
  space_ok 2 space_3x3 ∧ all_positive space_3x3 ∧
  ∃ rm cm : list (list Z),
    (∀ fuel, (length rm < fuel)%nat → rm_loop 2 fuel space_3x3 = Some rm)
    ∧ (∀ fuel, (length cm < fuel)%nat → cm_loop 2 fuel space_3x3 = Some cm)
    ∧ rm ≡ₚ cm.
Proof.
  split; [exact space_3x3_ok|]. split; [exact space_3x3_positive|].
  apply (rm_cm_visit_same_multiset 2 space_3x3).
  - lia.
  - exact space_3x3_ok.
  - exact space_3x3_positive.
Defined.

(** C8. Two cursors compare equal exactly when their index tuples are equal
    and the start and limit tuples of their spaces are equal; the bound
    order plays no part. *)
Theorem iteration_equal_iff (it rhs : iteration) :
  iteration_equal it rhs
  ↔ index it = index rhs
    ∧ start (_space it) = start (_space rhs)
    ∧ limit (_space it) = limit (_space rhs).
Proof.
  unfold iteration_equal, iteration_neq, dense_space_neq.
  rewrite !orb_false_iff, !array_neq_false.
  split; intros (? & ? & ?); split_and!; congruence.
Qed.




(** C10. With limit [2147483647] the successor of the terminal index is not
    the terminal index: the increment wraps to the smallest [int]. *)
Lemma successor_at_int_max_leaves_terminal :
  rm_next 1 (limit space_to_int_max) space_to_int_max = [-2147483648]
  ∧ rm_next 1 (limit space_to_int_max) space_to_int_max
    ≠ limit space_to_int_max.
Proof. split; [vm_compute; reflexivity|]. vm_compute. discriminate. Qed.

(** C10, as amended. For a space none of whose limits is the largest [int],
    both successor functions map the terminal index to itself, so advancing
    an end cursor succeeds and leaves it where it is. *)
Theorem successor_at_terminal (DIM : nat) (s : dense_space) :
  DIM ≠ 0%nat → space_ok DIM s → Forall (λ l, l < int_max) (limit s) →
  rm_next DIM (limit s) s = limit s
  ∧ cm_next DIM DIM (limit s) s = limit s
  ∧ advance (rm_end DIM s) = Some (rm_end DIM s)
  ∧ advance (cm_end DIM s) = Some (cm_end DIM s).
Proof.
  intros Hdim (Hss & Hls & _ & Hin) Hlt. destruct s as [ss ls]. simpl in *.
  assert (ls ≠ []) as Hne by (destruct ls; [simpl in *; lia|done]).
  assert (rm_next DIM ls (DenseSpace ss ls) = ls) as Hrm.
  { pose proof (rm_next_carry (reverse ls) [] [] [] (reverse ss) (reverse ls))
      as Hc.
    rewrite !reverse_involutive, !app_nil_r, !length_reverse in Hc.
    rewrite <- Hls, Hc, carry_at_limit;
      [done|by apply Forall_reverse|by apply Forall_reverse| |lia|done].
    intros Hnil. apply Hne. by rewrite <- (reverse_involutive ls), Hnil. }
  assert (cm_next DIM DIM ls (DenseSpace ss ls) = ls) as Hcm.
  { pose proof (cm_next_carry DIM ls [] [] [] ss ls) as Hc. simpl in Hc.
    rewrite <- Hls at 2. rewrite Hc, carry_at_limit; try done; lia. }
  unfold advance, rm_end, cm_end. simpl. by rewrite Hrm, Hcm.
Qed.

Lemma successor_at_terminal_witness :
  space_ok 2 space_3x3 ∧ Forall (λ l, l < int_max) (limit space_3x3)
  ∧ rm_next 2 (limit space_3x3) space_3x3 = limit space_3x3
  ∧ cm_next 2 2 (limit space_3x3) space_3x3 = limit space_3x3
  ∧ advance (rm_end 2 space_3x3) = Some (rm_end 2 space_3x3)
  ∧ advance (cm_end 2 space_3x3) = Some (cm_end 2 space_3x3).
Proof.
  assert (Forall (λ l, l < int_max) (limit space_3x3)) as Hlt
    by (unfold space_3x3, int_max; simpl; repeat constructor; lia).
  split; [exact space_3x3_ok|]. split; [exact Hlt|].
  apply (successor_at_terminal 2 space_3x3); [lia|exact space_3x3_ok|exact Hlt].
Defined.

(** * Further properties of the code *)

(** ** The loops as nested loops *)

Lemma bind_singleton_fmap {A B} (f : A → B) (l : list A) :
  l ≫= (λ x, [f x]) = f <$> l.
Proof. induction l as [|x l IH]; [done|]. rewrite bind_cons, IH. done. Qed.

Lemma fmap_bind_comm {A B C} (f : B → C) (g : A → list B) (l : list A) :
  f <$> (l ≫= g) = l ≫= λ x, f <$> g x.
Proof.
  induction l as [|x l IH]; [done|].
  by rewrite !bind_cons, fmap_app, IH.
Qed.

Lemma bind_bind_assoc {A B C} (f : A → list B) (g : B → list C)
    (l : list A) :
  (l ≫= f) ≫= g = l ≫= λ x, f x ≫= g.
Proof.
  induction l as [|x l IH]; [done|].
  by rewrite !bind_cons, bind_app, IH.
Qed.

Lemma nested_loops_snoc ss : ∀ ls s l,
  length ss = length ls →
  nested_loops (ss ++ [s]) (ls ++ [l])
  = nested_loops ss ls ≫= λ r, (λ x, r ++ [x]) <$> seqZ s (l - s).
Proof.
  induction ss as [|a ss IH]; intros [|b ls] s l Hlen; try done.
  - simpl. rewrite app_nil_r. apply (bind_singleton_fmap (λ x, [x])).
  - simpl in Hlen. cbn [app nested_loops]. rewrite IH by lia.
    rewrite bind_bind_assoc. apply list_bind_ext; [|done]. intros x.
    rewrite fmap_bind_comm, list_fmap_bind. apply list_bind_ext; [|done].
    intros r. simpl. rewrite <- list_fmap_compose. done.
Qed.

Lemma enum_nested_loops ss : ∀ ls,
  length ss = length ls →
  enum ss ls = reverse <$> nested_loops (reverse ss) (reverse ls).
Proof.
  induction ss as [|s ss IH]; intros [|l ls] Hlen; try done.
  simpl in Hlen. cbn [enum]. rewrite !reverse_cons.
  rewrite nested_loops_snoc by (rewrite !length_reverse; lia).
  rewrite fmap_bind_comm. rewrite IH by lia. rewrite list_fmap_bind.
  apply list_bind_ext; [|done]. intros r. unfold block. simpl.
  rewrite <- list_fmap_compose. apply list_fmap_ext.
  intros i x _. simpl. by rewrite reverse_snoc.
Qed.

Lemma rm_visited_nested_loops s :
  length (start s) = length (limit s) →
  rm_visited s = nested_loops (start s) (limit s).
Proof.
  intros Hlen. unfold rm_visited.
  rewrite enum_nested_loops, !reverse_involutive
    by (rewrite !length_reverse; lia).
  rewrite <- list_fmap_compose.
  rewrite <- (list_fmap_id (nested_loops _ _)) at 2.
  apply list_fmap_ext. intros i r _. simpl. apply reverse_involutive.
Qed.

(** X1. For a space of dimension [DIM >= 1] with strictly positive extents
    the loop over [cm_order] terminates, visits exactly
    [n_0 * ... * n_{DIM-1}] indices, none twice, and the visited indices are
    exactly those of the cartesian product of the ranges. *)
Theorem cm_loop_visits_cartesian_product (DIM : nat) (s : dense_space) :
  DIM ≠ 0%nat → space_ok DIM s → all_positive s →
  ∃ visited : list (list Z),
    (∀ fuel, (length visited < fuel)%nat → cm_loop DIM fuel s = Some visited)
    ∧ Z.of_nat (length visited) = volume s
    ∧ NoDup visited
    ∧ ∀ idx, idx ∈ visited ↔ in_space s idx.
Proof.
  intros Hdim Hok Hpos. exists (cm_visited s).
  assert (length (start s) = length (limit s)) as Hlen
    by (destruct Hok as (-> & -> & _); done).
  split_and!.
  - intros fuel. by apply cm_loop_visited.
  - by apply length_cm_visited.
  - apply NoDup_cm_visited.
  - intros idx. by apply elem_of_cm_visited.
Qed.

Lemma cm_loop_visits_cartesian_product_witness :
  space_ok 2 space_3x3 ∧ all_positive space_3x3 ∧
  ∃ visited : list (list Z),
    (∀ fuel, (length visited < fuel)%nat →
       cm_loop 2 fuel space_3x3 = Some visited)
    ∧ Z.of_nat (length visited) = volume space_3x3
    ∧ NoDup visited
    ∧ ∀ idx, idx ∈ visited ↔ in_space space_3x3 idx.
Proof.
  split; [exact space_3x3_ok|]. split; [exact space_3x3_positive|].
  apply (cm_loop_visits_cartesian_product 2 space_3x3).
  - lia.
  - exact space_3x3_ok.
  - exact space_3x3_positive.
Defined.

(** X2. For a space with strictly positive extents, the loop over
    [rm_order] hands out the indices in the very order of the hand-written
    nested loops with dimension 0 outermost and dimension [DIM - 1]
    innermost. *)
Theorem rm_loop_is_nested_loops (DIM : nat) (s : dense_space) (fuel : nat) :
  DIM ≠ 0%nat → space_ok DIM s → all_positive s →
  (length (nested_loops (start s) (limit s)) < fuel)%nat →
  rm_loop DIM fuel s = Some (nested_loops (start s) (limit s)).
Proof.
  intros Hdim Hok Hpos.
  assert (length (start s) = length (limit s)) as Hlen
    by (destruct Hok as (-> & -> & _); done).
  rewrite <- rm_visited_nested_loops by done. by apply rm_loop_visited.
Qed.

Lemma rm_loop_is_nested_loops_witness :
  space_ok 2 space_3x3 ∧ all_positive space_3x3
  ∧ (length (nested_loops (start space_3x3) (limit space_3x3)) < 10)%nat
  ∧ rm_loop 2 10 space_3x3
    = Some (nested_loops (start space_3x3) (limit space_3x3)).
Proof.
  assert (length (nested_loops (start space_3x3) (limit space_3x3)) < 10)%nat
    as Hfuel by (vm_compute; lia).
  split; [exact space_3x3_ok|]. split; [exact space_3x3_positive|].
  split; [exact Hfuel|].
  apply (rm_loop_is_nested_loops 2 space_3x3 10);
    [lia|exact space_3x3_ok|exact space_3x3_positive|exact Hfuel].
Defined.

(** X3. For a space with strictly positive extents, the loop over
    [cm_order] hands out the indices in the order of the nested loops with
    dimension [DIM - 1] outermost and dimension 0 innermost: the nested
    loops over the reversed bounds, each index read backwards. *)
Theorem cm_loop_is_reversed_nested_loops (DIM : nat) (s : dense_space)
    (fuel : nat) :
  DIM ≠ 0%nat → space_ok DIM s → all_positive s →
  let visited :=
    reverse <$> nested_loops (reverse (start s)) (reverse (limit s)) in
  (length visited < fuel)%nat → cm_loop DIM fuel s = Some visited.
Proof.
  intros Hdim Hok Hpos visited.
  assert (length (start s) = length (limit s)) as Hlen
    by (destruct Hok as (-> & -> & _); done).
  unfold visited. rewrite <- enum_nested_loops by done.
  by apply cm_loop_visited.
Qed.

Lemma cm_loop_is_reversed_nested_loops_witness :
  space_ok 2 space_3x3 ∧ all_positive space_3x3
  ∧ cm_loop 2 10 space_3x3
    = Some (reverse <$> nested_loops (reverse (start space_3x3))
                          (reverse (limit space_3x3))).
Proof.
  split; [exact space_3x3_ok|]. split; [exact space_3x3_positive|].
  apply (cm_loop_is_reversed_nested_loops 2 space_3x3 10);
    [lia|exact space_3x3_ok|exact space_3x3_positive|vm_compute; lia].
Defined.

(** ** The successor functions on their own *)

Lemma carry_in_box ss ls xs r :
  Forall in_int ss → Forall in_int ls → in_box ss ls xs →
  carry ss ls xs = Some r → in_box ss ls r.
Proof.
  intros Hins Hin Hbox. revert r Hins Hin.
  induction Hbox as [|s l x ss ls xs Hx Hbox IH]; intros r Hins Hin; [done|].
  apply Forall_cons in Hins as [Hs Hins].
  apply Forall_cons in Hin as [Hl Hin]. cbn [carry].
  rewrite int_wrap_id by (unfold in_int, int_min, int_max in *; lia).
  destruct (Z.geb_spec (x + 1) l) as [Hge|Hlt].
  - destruct (carry ss ls xs) as [r'|] eqn:Hc; [|done].
    intros [= <-]. constructor; [lia|]. by apply IH.
  - intros [= <-]. constructor; [lia|done].
Qed.

Lemma rm_next_as_carry (DIM : nat) (s : dense_space) (idx : list Z) :
  DIM ≠ 0%nat → length (start s) = DIM → length (limit s) = DIM →
  length idx = DIM →
  rm_next DIM idx s
  = from_option reverse (limit s)
      (carry (reverse (start s)) (reverse (limit s)) (reverse idx)).
Proof.
  intros Hdim Hss Hls Hlen. destruct s as [ss ls]. simpl in *.
  pose proof (rm_next_carry (reverse idx) [] [] [] (reverse ss) (reverse ls))
    as Hc.
  rewrite !reverse_involutive, !app_nil_r, !length_reverse in Hc.
  rewrite <- Hlen, Hc; [|
    |lia|lia].
  - destruct (carry _ _ _); simpl; by rewrite ?app_nil_r.
  - intros Hnil. destruct idx; [simpl in *; lia|].
    rewrite reverse_cons in Hnil. by destruct (reverse idx).
Qed.

Lemma cm_next_as_carry (DIM : nat) (s : dense_space) (idx : list Z) :
  DIM ≠ 0%nat → length (start s) = DIM → length (limit s) = DIM →
  length idx = DIM →
  cm_next DIM DIM idx s
  = from_option id (limit s) (carry (start s) (limit s) idx).
Proof.
  intros Hdim Hss Hls Hlen. destruct s as [ss ls]. simpl in *.
  pose proof (cm_next_carry DIM idx [] [] [] ss ls) as Hc. simpl in Hc.
  rewrite <- Hlen at 2. rewrite Hc; try lia.
  - by destruct (carry ss ls idx).
  - destruct idx; [simpl in *; lia|done].
Qed.

(** X4. Started on an index of the space, either successor function yields
    an index of the space again or the terminal index [limit]: it never
    leaves the ranges otherwise. *)
Theorem successor_stays_in_space (DIM : nat) (s : dense_space)
    (idx : list Z) :
  DIM ≠ 0%nat → space_ok DIM s → in_space s idx →
  (in_space s (rm_next DIM idx s) ∨ rm_next DIM idx s = limit s)
  ∧ (in_space s (cm_next DIM DIM idx s) ∨ cm_next DIM DIM idx s = limit s).
Proof.
  intros Hdim (Hss & Hls & Hins & Hin) Hbox.
  pose proof (in_box_length _ _ _ Hbox) as Hlen.
  rewrite rm_next_as_carry, cm_next_as_carry by lia. split.
  - destruct (carry (reverse (start s)) _ _) as [r|] eqn:Hc; [|by right].
    left. simpl. apply in_box_reverse. rewrite reverse_involutive.
    apply (carry_in_box _ _ _ _ (proj2 (Forall_reverse _ _) Hins)
             (proj2 (Forall_reverse _ _) Hin)
             (in_box_reverse_1 _ _ _ Hbox) Hc).
  - destruct (carry (start s) _ _) as [r|] eqn:Hc; [|by right].
    left. simpl. by apply (carry_in_box _ _ _ _ Hins Hin Hbox Hc).
Qed.

Lemma successor_stays_in_space_witness :
  space_ok 2 space_3x3 ∧ in_space space_3x3 [3; 3]
  ∧ (in_space space_3x3 (rm_next 2 [3; 3] space_3x3)
     ∨ rm_next 2 [3; 3] space_3x3 = limit space_3x3)
  ∧ (in_space space_3x3 (cm_next 2 2 [3; 3] space_3x3)
     ∨ cm_next 2 2 [3; 3] space_3x3 = limit space_3x3).
Proof.
  assert (in_space space_3x3 [3; 3]) as Hin
    by (unfold in_space, in_box, space_3x3; simpl; repeat constructor; lia).
  split; [exact space_3x3_ok|]. split; [exact Hin|].
  apply (successor_stays_in_space 2 space_3x3 [3; 3]);
    [lia|exact space_3x3_ok|exact Hin].
Defined.

(** X5. Row-major order is column-major order on the space with its
    dimensions reversed: the row-major successor of an index is the
    column-major successor of the reversed index, read backwards. *)
Theorem rm_next_is_reversed_cm_next (DIM : nat) (s : dense_space)
    (idx : list Z) :
  DIM ≠ 0%nat → length (start s) = DIM → length (limit s) = DIM →
  length idx = DIM →
  rm_next DIM idx s
  = reverse (cm_next DIM DIM (reverse idx) (reverse_space s)).
Proof.
  intros Hdim Hss Hls Hlen.
  rewrite rm_next_as_carry by done.
  rewrite cm_next_as_carry by (simpl; rewrite ?length_reverse; done).
  simpl. destruct (carry _ _ _); simpl; [done|].
  by rewrite reverse_involutive.
Qed.

Lemma rm_next_is_reversed_cm_next_witness :
  length (start space_3x3) = 2%nat ∧ length (limit space_3x3) = 2%nat
  ∧ rm_next 2 [1; 3] space_3x3
    = reverse (cm_next 2 2 (reverse [1; 3]) (reverse_space space_3x3)).
Proof.
  split; [reflexivity|]. split; [reflexivity|].
  apply (rm_next_is_reversed_cm_next 2 space_3x3 [1; 3]);
    [lia|reflexivity|reflexivity|reflexivity].
Defined.

(** ** Construction, dereference and the loop's edge cases *)

Lemma init_interleave ss : ∀ ls,
  ss ≠ [] → length ss = length ls →
  init (interleave ss ls) = Some (DenseSpace ss ls).
Proof.
  induction ss as [|s ss IH]; intros [|l ls] Hne Hlen; try done.
  destruct ss as [|s' ss]; destruct ls as [|l' ls]; try done.
  change (interleave (s :: s' :: ss) (l :: l' :: ls))
    with (s :: l :: interleave (s' :: ss) (l' :: ls)).
  change (init (s :: l :: interleave (s' :: ss) (l' :: ls)))
    with ((λ sp, DenseSpace (s :: start sp) (l :: limit sp))
            <$> init (interleave (s' :: ss) (l' :: ls))).
  rewrite IH; [done|done|by simpl in *; lia].
Qed.

Lemma init_inv (n : nat) : ∀ args sp,
  (length args ≤ n)%nat → init args = Some sp →
  args = interleave (start sp) (limit sp)
  ∧ length (start sp) = length (limit sp) ∧ start sp ≠ [].
Proof.
  induction n as [|n IH]; intros args sp Hn Hinit.
  - destruct args; [done|simpl in Hn; lia].
  - destruct args as [|s [|l args]]; try done.
    destruct args as [|s' args].
    + injection Hinit as <-. done.
    + change (init (s :: l :: s' :: args))
        with ((λ sp, DenseSpace (s :: start sp) (l :: limit sp))
                <$> init (s' :: args)) in Hinit.
      destruct (init (s' :: args)) as [sp'|] eqn:Hsp; [|done].
      injection Hinit as <-.
      destruct (IH (s' :: args) sp') as (Heq & Hlen & Hne);
        [simpl in *; lia|done|].
      simpl. rewrite <- Heq. split_and!; [done|lia|done].
Qed.

(** X6. The constructor and the bound arrays determine each other: the
    constructor accepts an argument list exactly when it is
    [start_0, limit_0, ..., start_{D-1}, limit_{D-1}] for two arrays of one
    length [D >= 1], and then builds the space of these arrays. *)
Theorem init_builds_space_iff (args : list Z) (sp : dense_space) :
  init args = Some sp
  ↔ args = interleave (start sp) (limit sp)
    ∧ length (start sp) = length (limit sp) ∧ start sp ≠ [].
Proof.
  split.
  - by apply (init_inv (length args)).
  - intros (-> & Hlen & Hne). destruct sp as [ss ls]. by apply init_interleave.
Qed.

(** X7. The constructor rejects the empty argument list and every argument
    list of odd length, and accepts every other one. *)
Theorem init_accepts_iff (args : list Z) :
  is_Some (init args) ↔ args ≠ [] ∧ Nat.Even (length args).
Proof.
  split.
  - intros [sp Hsp].
    apply (init_inv (length args)) in Hsp as (-> & Hlen & Hne); [|lia].
    destruct sp as [ss ls]. simpl in *. split.
    + destruct ss, ls; done.
    + exists (length ss). clear Hne. revert ls Hlen.
      induction ss as [|s ss IH]; intros [|l ls] Hlen; try done.
      simpl in *. rewrite (IH ls) by lia. lia.
  - intros [Hne [k Hk]]. revert args Hne Hk.
    induction k as [|k IH]; intros args Hne Hk.
    + destruct args; [done|simpl in Hk; lia].
    + destruct args as [|s [|l args]]; try (simpl in Hk; lia); try done.
      destruct args as [|s' args]; [by eexists|].
      change (init (s :: l :: s' :: args))
        with ((λ sp, DenseSpace (s :: start sp) (l :: limit sp))
                <$> init (s' :: args)).
      destruct (IH (s' :: args)) as [sp' ->]; [done|simpl in *; lia|].
      by eexists.
Qed.

(** X8. [operator*] of a cursor hands out the components of its index in
    the order of the dimensions: the tuple is the index array. *)
Theorem deref_is_index (DIM : nat) (it : iteration) :
  length (index it) = DIM → deref DIM it = index it.
Proof. intros <-. apply array_to_tuple_id. Qed.

Lemma deref_is_index_witness :
  length (index (rm_begin 2 space_3x3)) = 2%nat
  ∧ deref 2 (rm_begin 2 space_3x3) = index (rm_begin 2 space_3x3).
Proof.
  split; [reflexivity|].
  apply (deref_is_index 2 (rm_begin 2 space_3x3)). reflexivity.
Defined.

Lemma fmap_cons_not_nil {A} (x : A) (o : option (list A)) :
  cons x <$> o ≠ Some [].
Proof. by destruct o. Qed.

(** X9. The loop, under either order, runs zero times exactly when [start]
    and [limit] agree in every dimension. *)
Theorem loop_runs_zero_times_iff (DIM : nat) (s : dense_space) (fuel : nat) :
  (rm_loop DIM (S fuel) s = Some [] ↔ start s = limit s)
  ∧ (cm_loop DIM (S fuel) s = Some [] ↔ start s = limit s).
Proof.
  unfold rm_loop, cm_loop. cbn [for_loop]. unfold iteration_neq. simpl.
  assert (dense_space_neq s s = false) as -> by by apply dense_space_neq_false.
  rewrite orb_false_r.
  destruct (array_neq (limit s) (start s)) eqn:Hneq.
  - apply array_neq_true in Hneq.
    split; (split; [intros H; by apply fmap_cons_not_nil in H|congruence]).
  - apply array_neq_false in Hneq. by split.
Qed.

(** X10. A loop directly over a [dense_space] uses cursors bound to no
    order, so [operator++] on its begin cursor fails its [assert(order)].
    The loop reaches that [operator++] exactly when [start] and [limit]
    differ in some dimension, and then no amount of fuel lets it complete;
    when they agree in every dimension it completes with zero rounds. *)
Theorem bare_space_loop_aborts (DIM : nat) (s : dense_space) (fuel : nat) :
  advance (dense_space_begin s) = None
  ∧ (iteration_neq (dense_space_begin s) (dense_space_end s) = true
     ↔ start s ≠ limit s)
  ∧ for_loop DIM (S fuel) (dense_space_begin s) (dense_space_end s)
    = if decide (start s = limit s) then Some [] else None.
Proof.
  split; [done|].
  cbn [for_loop]. unfold iteration_neq. simpl.
  assert (dense_space_neq s s = false) as -> by by apply dense_space_neq_false.
  rewrite orb_false_r.
  destruct (array_neq (limit s) (start s)) eqn:Hneq.
  - apply array_neq_true in Hneq.
    split; [split; congruence|]. by destruct (decide (start s = limit s)).
  - apply array_neq_false in Hneq.
    split; [split; congruence|]. by destruct (decide (start s = limit s)).
Qed.

(** ** The 2-D prototype against the generic version *)

Lemma next_is_cm_next (i j : Z) (sp : Legacy2D.space2d) :
  cm_next 2 2 [i; j] (space_of_2d sp)
  = [(Legacy2D.next (i, j) sp).1; (Legacy2D.next (i, j) sp).2].
Proof.
  unfold Legacy2D.next, space_of_2d. cbn.
  destruct (int_wrap (i + 1) >=? Legacy2D.end_i sp); [|done]. cbn.
  by destruct (int_wrap (j + 1) >=? Legacy2D.end_j sp).
Qed.

Lemma prototype_for_loop_is_cm (sp : Legacy2D.space2d) (fuel : nat) :
  ∀ i j,
  Legacy2D.for_loop fuel
    {| Legacy2D.i := i; Legacy2D.j := j;
       Legacy2D._order := Some Legacy2D.next; Legacy2D._space := sp |}
    (Legacy2D.rm_end sp)
  = (λ l : list (list Z), pair_of_index <$> l)
      <$> for_loop 2 fuel (cursor_at (cm_next 2 2) (space_of_2d sp) [i; j])
            (cm_end 2 (space_of_2d sp)).
Proof.
  induction fuel as [|fuel IH]; intros i j; [done|].
  cbn [Legacy2D.for_loop for_loop].
  assert (Legacy2D.iteration_neq
            {| Legacy2D.i := i; Legacy2D.j := j;
               Legacy2D._order := Some Legacy2D.next; Legacy2D._space := sp |}
            (Legacy2D.rm_end sp)
          = iteration_neq (cursor_at (cm_next 2 2) (space_of_2d sp) [i; j])
              (cm_end 2 (space_of_2d sp))) as ->.
  { unfold Legacy2D.iteration_neq, iteration_neq, Legacy2D.space2d_neq,
      dense_space_neq, array_neq. simpl. rewrite !Z.eqb_refl. simpl.
    rewrite !andb_true_r.
    by destruct (Legacy2D.end_i sp =? i), (Legacy2D.end_j sp =? j). }
  destruct (iteration_neq _ _); [|done].
  unfold Legacy2D.advance, advance, cursor_at, Legacy2D.deref, deref.
  cbn [Legacy2D._order order Legacy2D.i Legacy2D.j Legacy2D._space index
       _space array_to_tuple].
  rewrite next_is_cm_next.
  destruct (Legacy2D.next (i, j) sp) as [i' j'] eqn:Hn. cbn [fst snd].
  rewrite IH. unfold cursor_at.
  by destruct (for_loop 2 fuel _ _).
Qed.

(** X11. The loop of the 2-D prototype over [_rm_order] is the loop of the
    generic version over [cm_order] on the space with the same bounds: with
    any fuel the two hand out the same pairs in the same order. *)
Theorem prototype_loop_is_cm_loop (sp : Legacy2D.space2d) (fuel : nat) :
  Legacy2D.for_loop fuel (Legacy2D.rm_begin sp) (Legacy2D.rm_end sp)
  = (λ l : list (list Z), pair_of_index <$> l)
      <$> cm_loop 2 fuel (space_of_2d sp).
Proof. apply prototype_for_loop_is_cm. Qed.

(** X12. For a prototype space with [start_i < end_i] and
    [start_j < end_j] the loop terminates and hands out the pairs [(i, j)]
    in the order of the nested loops with [j] outermost and [i] innermost,
    each pair of the rectangle once. *)
Theorem prototype_loop_visits_rectangle (sp : Legacy2D.space2d) (fuel : nat) :
  in_int (Legacy2D.start_i sp) → in_int (Legacy2D.end_i sp) →
  in_int (Legacy2D.start_j sp) → in_int (Legacy2D.end_j sp) →
  Legacy2D.start_i sp < Legacy2D.end_i sp →
  Legacy2D.start_j sp < Legacy2D.end_j sp →
  let visited :=
    seqZ (Legacy2D.start_j sp) (Legacy2D.end_j sp - Legacy2D.start_j sp)
    ≫= λ j, (λ i, (i, j))
             <$> seqZ (Legacy2D.start_i sp)
                   (Legacy2D.end_i sp - Legacy2D.start_i sp) in
  (length visited < fuel)%nat →
  Legacy2D.for_loop fuel (Legacy2D.rm_begin sp) (Legacy2D.rm_end sp)
  = Some visited.
Proof.
  intros Hsi Hei Hsj Hej Hi Hj visited Hfuel.
  assert (pair_of_index <$> cm_visited (space_of_2d sp) = visited) as Hv.
  { unfold cm_visited, space_of_2d, visited. cbn [start limit enum].
    rewrite bind_singleton, fmap_bind_comm. unfold block at 2.
    rewrite list_fmap_bind. apply list_bind_ext; [|done]. intros j. simpl.
    unfold block. by rewrite <- list_fmap_compose. }
  unfold Legacy2D.rm_begin. rewrite prototype_for_loop_is_cm.
  change (for_loop 2 fuel _ _) with (cm_loop 2 fuel (space_of_2d sp)).
  rewrite (cm_loop_visited 2 (space_of_2d sp)).
  - simpl. by rewrite Hv.
  - done.
  - unfold space_ok, space_of_2d. simpl.
    split_and!; [done|done|..]; repeat (constructor; [done|]); constructor.
  - unfold all_positive, space_of_2d. simpl.
    repeat (constructor; [done|]). constructor.
  - rewrite <- Hv, length_fmap in Hfuel. done.
Qed.

Lemma prototype_loop_visits_rectangle_witness :
  Legacy2D.start_i space2d_3x3 < Legacy2D.end_i space2d_3x3
  ∧ Legacy2D.start_j space2d_3x3 < Legacy2D.end_j space2d_3x3
  ∧ Legacy2D.for_loop 10 (Legacy2D.rm_begin space2d_3x3)
      (Legacy2D.rm_end space2d_3x3)
    = Some (seqZ 1 (4 - 1) ≫= λ j, (λ i, (i, j)) <$> seqZ 1 (4 - 1)).
Proof.
  split; [simpl; lia|]. split; [simpl; lia|].
  apply (prototype_loop_visits_rectangle space2d_3x3 10);
    unfold in_int, int_min, int_max; simpl; lia.
Defined.

(** X13. Two cursors of the 2-D prototype compare equal exactly when their
    [i], their [j] and the four bounds of their spaces are equal. *)
Theorem prototype_iteration_equal_iff (it rhs : Legacy2D.iteration) :
  Legacy2D.iteration_neq it rhs = false
  ↔ Legacy2D.i it = Legacy2D.i rhs ∧ Legacy2D.j it = Legacy2D.j rhs
    ∧ Legacy2D._space it = Legacy2D._space rhs.
Proof.
  unfold Legacy2D.iteration_neq, Legacy2D.space2d_neq.
  rewrite !orb_false_iff, !negb_false_iff, !Z.eqb_eq.
  destruct (Legacy2D._space it), (Legacy2D._space rhs). simpl. split.
  - intros [[Hi Hj] [[[H1 H2] H3] H4]]. split_and!; congruence.
  - intros (Hi & Hj & [= -> -> -> ->]). split_and!; congruence.
Qed.

(** X14. On a 2-D space split along dimension 0 the generic partition
    computes the bounds the prototype's [_static_partition] computes, for
    every worker id and worker count. *)
Theorem prototype_partition_is_partition (id threads : Z)
    (sp : Legacy2D.space2d) :
  Legacy2D._static_partition id threads sp
  = space2d_of <$> static_partition 2 0 id threads (space_of_2d sp).
Proof.
  unfold Legacy2D._static_partition, static_partition, space_of_2d. simpl.
  destruct (int_div_traps _ threads); [done|].
  destruct (id =? int_wrap (threads - 1)); done.
Qed.

(** ** More on the static partition *)

Lemma int_wrap_in_int z : in_int (int_wrap z).
Proof.
  unfold in_int, int_min, int_max, int_wrap.
  pose proof (Z.mod_pos_bound (z + 2 ^ 31) (2 ^ 32) ltac:(lia)). lia.
Qed.

Lemma in_box_lookup ss ls idx (d : nat) :
  in_box ss ls idx → (d < length ss)%nat →
  ss !!! d <= idx !!! d < ls !!! d.
Proof.
  intros Hbox. revert d.
  induction Hbox as [|s l x ss ls idx Hx _ IH]; intros d Hd;
    [simpl in Hd; lia|].
  destruct d as [|d]; [done|]. simpl in Hd. apply IH. lia.
Qed.

(** X15. The partition touches nothing but the split dimension: the arrays
    keep their length, and the start and limit of every other dimension are
    those of the original space. *)
Theorem partition_keeps_other_dimensions (DIM : nat) (dim id threads : Z)
    (o p : dense_space) (d : nat) :
  static_partition DIM dim id threads o = Some p → d ≠ Z.to_nat dim →
  length (start p) = length (start o) ∧ length (limit p) = length (limit o)
  ∧ start p !!! d = start o !!! d ∧ limit p !!! d = limit o !!! d.
Proof.
  unfold static_partition.
  destruct (negb _); [done|]. destruct (int_div_traps _ threads); [done|].
  intros [= <-] Hd. cbn [start limit].
  destruct (negb (id =? int_wrap (threads - 1)));
    by rewrite ?length_insert, ?list_lookup_total_insert_ne.
Qed.

Lemma partition_keeps_other_dimensions_witness :
  static_partition 2 0 0 2 main_space = Some (DenseSpace [0; 1] [49; 99])
  ∧ 1%nat ≠ Z.to_nat 0
  ∧ length [0; 1] = length (start main_space)
  ∧ length [49; 99] = length (limit main_space)
  ∧ [0; 1] !!! 1%nat = start main_space !!! 1%nat
  ∧ [49; 99] !!! 1%nat = limit main_space !!! 1%nat.
Proof.
  assert (static_partition 2 0 0 2 main_space
          = Some (DenseSpace [0; 1] [49; 99])) as Hp
    by (vm_compute; reflexivity).
  split; [exact Hp|]. split; [simpl; lia|].
  apply (partition_keeps_other_dimensions 2 0 0 2 main_space
           (DenseSpace [0; 1] [49; 99]) 1); [exact Hp|simpl; lia].
Defined.

Lemma partition_slice (DIM : nat) (dim id threads : Z) (o p : dense_space) :
  0 <= dim < Z.of_nat DIM →
  length (start o) = DIM → length (limit o) = DIM →
  0 <= id < threads → in_int threads →
  0 <= limit o !!! Z.to_nat dim - start o !!! Z.to_nat dim <= int_max →
  static_partition DIM dim id threads o = Some p →
  length (start p) = DIM ∧ length (limit p) = DIM
  ∧ start p !!! Z.to_nat dim
    = (limit o !!! Z.to_nat dim - start o !!! Z.to_nat dim) ÷ threads * id
  ∧ limit p !!! Z.to_nat dim
    = (if decide (id = threads - 1) then limit o !!! Z.to_nat dim
       else (limit o !!! Z.to_nat dim - start o !!! Z.to_nat dim)
            ÷ threads * (id + 1)).
Proof.
  intros Hdim Hss Hls Hid Hthr Hsize Hp.
  rewrite static_partition_value in Hp by done.
  injection Hp as <-. cbn [start limit].
  rewrite length_insert, list_lookup_total_insert_eq by lia.
  destruct (decide (id = threads - 1)); [done|].
  by rewrite length_insert, list_lookup_total_insert_eq by lia.
Qed.

(** X16. When nothing overflows, the slices of two consecutive workers
    abut: the limit of worker [id] along the split dimension is the start
    of worker [id + 1], and the slice of every worker but the last has
    length [size / threads]. *)
Theorem adjacent_slices_abut (DIM : nat) (dim id threads : Z)
    (o : dense_space) :
  0 <= dim < Z.of_nat DIM →
  length (start o) = DIM → length (limit o) = DIM →
  0 <= id → id + 1 < threads → in_int threads →
  0 <= limit o !!! Z.to_nat dim - start o !!! Z.to_nat dim <= int_max →
  ∃ p q,
    static_partition DIM dim id threads o = Some p
    ∧ static_partition DIM dim (id + 1) threads o = Some q
    ∧ limit p !!! Z.to_nat dim = start q !!! Z.to_nat dim
    ∧ limit p !!! Z.to_nat dim - start p !!! Z.to_nat dim
      = (limit o !!! Z.to_nat dim - start o !!! Z.to_nat dim) ÷ threads.
Proof.
  intros Hdim Hss Hls Hid Hid' Hthr Hsize.
  rewrite !static_partition_value by (done || lia).
  eexists _, _. split; [reflexivity|]. split; [reflexivity|].
  cbn [start limit].
  destruct (decide (id = threads - 1)); [lia|].
  rewrite !list_lookup_total_insert_eq by lia. lia.
Qed.

Lemma adjacent_slices_abut_witness :
  ∃ p q,
    static_partition 2 0 0 3 main_space = Some p
    ∧ static_partition 2 0 (0 + 1) 3 main_space = Some q
    ∧ limit p !!! Z.to_nat 0 = start q !!! Z.to_nat 0
    ∧ limit p !!! Z.to_nat 0 - start p !!! Z.to_nat 0
      = (limit main_space !!! Z.to_nat 0 - start main_space !!! Z.to_nat 0)
        ÷ 3.
Proof.
  apply (adjacent_slices_abut 2 0 0 3 main_space);
    try reflexivity; unfold in_int, int_min, int_max; simpl; lia.
Defined.

Lemma partition_spaces_disjoint (DIM : nat) (dim id1 id2 threads : Z)
    (o p1 p2 : dense_space) (idx : list Z) :
  0 <= dim < Z.of_nat DIM →
  length (start o) = DIM → length (limit o) = DIM →
  0 <= id1 → id1 < id2 → id2 < threads → in_int threads →
  0 <= limit o !!! Z.to_nat dim - start o !!! Z.to_nat dim <= int_max →
  static_partition DIM dim id1 threads o = Some p1 →
  static_partition DIM dim id2 threads o = Some p2 →
  in_space p1 idx → ¬ in_space p2 idx.
Proof.
  intros Hdim Hss Hls Hid1 Hlt Hid2 Hthr Hsize Hp1 Hp2 Hin1 Hin2.
  destruct (partition_slice DIM dim id1 threads o p1)
    as (Hl1 & _ & _ & Hlp); [done|done|done|lia|done|done|done|].
  destruct (partition_slice DIM dim id2 threads o p2)
    as (Hl2 & _ & Hsq & _); [done|done|done|lia|done|done|done|].
  apply (in_box_lookup _ _ _ (Z.to_nat dim)) in Hin1; [|lia].
  apply (in_box_lookup _ _ _ (Z.to_nat dim)) in Hin2; [|lia].
  destruct (decide (id1 = threads - 1)); [lia|].
  assert (0 <= (limit o !!! Z.to_nat dim - start o !!! Z.to_nat dim)
               ÷ threads) by (apply Z.quot_pos; lia).
  nia.
Qed.

Lemma for_loop_mono (DIM : nat) (fuel : nat) : ∀ fuel' it e v,
  (fuel ≤ fuel')%nat → for_loop DIM fuel it e = Some v →
  for_loop DIM fuel' it e = Some v.
Proof.
  induction fuel as [|fuel IH]; intros fuel' it e v Hle Hv; [done|].
  destruct fuel' as [|fuel']; [lia|]. cbn [for_loop] in *.
  destruct (iteration_neq it e); [|done].
  destruct (advance it) as [it'|]; [|done].
  destruct (for_loop DIM fuel it' e) as [v'|] eqn:Hv'; [|done].
  by rewrite (IH fuel' it' e v') by (done || lia).
Qed.

Lemma partition_space_ok (DIM : nat) (dim id threads : Z)
    (o p : dense_space) :
  space_ok DIM o → static_partition DIM dim id threads o = Some p →
  space_ok DIM p.
Proof.
  intros (Hss & Hls & Hins & Hinl). unfold static_partition.
  destruct (negb _); [done|]. destruct (int_div_traps _ threads); [done|].
  intros [= <-]. unfold space_ok. cbn [start limit].
  destruct (negb (id =? int_wrap (threads - 1)));
    rewrite ?length_insert; split_and!; try done;
    apply Forall_insert; try done; apply int_wrap_in_int.
Qed.

(** X17. When nothing overflows, two different workers never visit the
    same index: the loops over the partitions of workers [id1 < id2], under
    row-major or under column-major order, hand out disjoint lists. *)
Theorem workers_visit_disjoint_indices (DIM : nat) (dim id1 id2 threads : Z)
    (o p1 p2 : dense_space) (fuel1 fuel2 : nat) (v1 v2 : list (list Z)) :
  DIM ≠ 0%nat → space_ok DIM o → 0 <= dim < Z.of_nat DIM →
  0 <= id1 → id1 < id2 → id2 < threads → in_int threads →
  0 <= limit o !!! Z.to_nat dim - start o !!! Z.to_nat dim <= int_max →
  static_partition DIM dim id1 threads o = Some p1 →
  static_partition DIM dim id2 threads o = Some p2 →
  all_positive p1 → all_positive p2 →
  (rm_loop DIM fuel1 p1 = Some v1 ∨ cm_loop DIM fuel1 p1 = Some v1) →
  (rm_loop DIM fuel2 p2 = Some v2 ∨ cm_loop DIM fuel2 p2 = Some v2) →
  ∀ idx, idx ∈ v1 → idx ∉ v2.
Proof.
  intros Hdim Hok Hd Hid1 Hlt Hid2 Hthr Hsize Hp1 Hp2 Hpos1 Hpos2 Hv1 Hv2
    idx Hin1 Hin2.
  pose proof (partition_space_ok _ _ _ _ _ _ Hok Hp1) as Hok1.
  pose proof (partition_space_ok _ _ _ _ _ _ Hok Hp2) as Hok2.
  assert (∀ p fuel v, space_ok DIM p → all_positive p →
            rm_loop DIM fuel p = Some v ∨ cm_loop DIM fuel p = Some v →
            ∀ x, x ∈ v → in_space p x) as Hvis.
  { intros p fuel v Hokp Hposp Hv x Hx.
    assert (length (start p) = length (limit p)) as Hlen
      by (destruct Hokp as (-> & -> & _); done).
    destruct Hv as [Hv|Hv].
    - apply (for_loop_mono _ _ (fuel `max` S (length (rm_visited p))))
        in Hv; [|lia].
      unfold rm_loop in *.
      pose proof (rm_loop_visited DIM p Hdim Hokp Hposp
                    (fuel `max` S (length (rm_visited p))) ltac:(lia)) as Hr.
      unfold rm_loop in Hr. rewrite Hr in Hv. injection Hv as <-.
      by apply elem_of_rm_visited.
    - apply (for_loop_mono _ _ (fuel `max` S (length (cm_visited p))))
        in Hv; [|lia].
      pose proof (cm_loop_visited DIM p Hdim Hokp Hposp
                    (fuel `max` S (length (cm_visited p))) ltac:(lia)) as Hr.
      unfold cm_loop in Hr. rewrite Hr in Hv. injection Hv as <-.
      by apply elem_of_cm_visited. }
  destruct Hok as (Hss & Hls & _).
  apply (partition_spaces_disjoint DIM dim id1 id2 threads o p1 p2 idx);
    try done.
  - by apply (Hvis p1 fuel1 v1).
  - by apply (Hvis p2 fuel2 v2).
Qed.

Lemma workers_visit_disjoint_indices_witness :
  static_partition 2 0 0 3 space_3x3 = Some (DenseSpace [0; 1] [1; 4])
  ∧ static_partition 2 0 1 3 space_3x3 = Some (DenseSpace [1; 1] [2; 4])
  ∧ rm_loop 2 4 (DenseSpace [0; 1] [1; 4]) = Some [[0;1]; [0;2]; [0;3]]
  ∧ cm_loop 2 4 (DenseSpace [1; 1] [2; 4]) = Some [[1;1]; [1;2]; [1;3]]
  ∧ ∀ idx, idx ∈ [[0;1]; [0;2]; [0;3]] → idx ∉ [[1;1]; [1;2]; [1;3]].
Proof.
  assert (static_partition 2 0 0 3 space_3x3
          = Some (DenseSpace [0; 1] [1; 4])) as Hp1
    by (vm_compute; reflexivity).
  assert (static_partition 2 0 1 3 space_3x3
          = Some (DenseSpace [1; 1] [2; 4])) as Hp2
    by (vm_compute; reflexivity).
  assert (rm_loop 2 4 (DenseSpace [0; 1] [1; 4])
          = Some [[0;1]; [0;2]; [0;3]]) as Hv1 by (vm_compute; reflexivity).
  assert (cm_loop 2 4 (DenseSpace [1; 1] [2; 4])
          = Some [[1;1]; [1;2]; [1;3]]) as Hv2 by (vm_compute; reflexivity).
  split; [exact Hp1|]. split; [exact Hp2|]. split; [exact Hv1|].
  split; [exact Hv2|].
  apply (workers_visit_disjoint_indices 2 0 0 1 3 space_3x3
           (DenseSpace [0; 1] [1; 4]) (DenseSpace [1; 1] [2; 4]) 4 4).
  - lia.
  - exact space_3x3_ok.
  - simpl; lia.
  - lia.
  - lia.
  - lia.
  - unfold in_int, int_min, int_max; lia.
  - unfold int_max; simpl; lia.
  - exact Hp1.
  - exact Hp2.
  - unfold all_positive; simpl; repeat (constructor; [lia|]); constructor.
  - unfold all_positive; simpl; repeat (constructor; [lia|]); constructor.
  - left; exact Hv1.
  - right; exact Hv2.
Defined.

Lemma partition_slices_union_witness :
  0 <= start main_space !!! Z.to_nat 0
  ∧ ∀ x, (∃ id p, 0 <= id < 2
                  ∧ static_partition 2 0 id 2 main_space = Some p
                  ∧ in_slice p (Z.to_nat 0) x)
         ↔ 0 <= x < limit main_space !!! Z.to_nat 0.
Proof.
  split; [simpl; lia|].
  apply (partition_slices_union 2 0 2 main_space);
    try reflexivity; unfold in_int, int_min, int_max; simpl; lia.
Defined.
